(** * containerstream.h: the container-backed stream buffer

    A shallow embedding of [Concurrency::streams::details::basic_container_buffer]
    (Release/include/containerstream.h) and the properties of its
    read / write / seek / acquire / alloc state machine.

    Conventions of the embedding.
    - [size_t] is a 64-bit unsigned integer: values are [N], and every
      addition or subtraction the source performs on [size_t] is written
      with its wrap-around ([size_t_add], [size_t_sub]).
    - [pos_type] / [off_type] / [int_type] are signed: values are [Z].
    - The collection [m_data] is a [list]; [m_data.size()] is [data_size].
    - A call has one of three outcomes: it returns ([Done]), it throws a
      C++ exception ([Throws]), or it runs into undefined behaviour
      ([Undefined]: a [std::copy] whose range leaves the array it is given).
      Running out of memory ([std::bad_alloc]) is not modelled; a [resize]
      beyond [max_size()] throws [std::length_error].
    - [_PPLX_ASSERT] is compiled out of release builds and is not part of
      the embedding; the asserted conditions are [buffer_invariant] below.
    - [pplx::task_from_result(v)] is an already completed task: the
      embedding returns [v]. *)

From stdpp Require Import base numbers list option.

Open Scope N_scope.

(** ** Outcomes of a call *)

Inductive exception : Type :=
  | invalid_argument
  | length_error.

Inductive outcome (T : Type) : Type :=
  | Done (t : T)
  | Throws (e : exception)
  | Undefined.

Arguments Done {T} t.
Arguments Throws {T} e.
Arguments Undefined {T}.

#[global] Instance outcome_ret : MRet outcome := λ T t, Done t.

#[global] Instance outcome_bind : MBind outcome := λ A B f m,
  match m with
  | Done a => f a
  | Throws e => Throws e
  | Undefined => Undefined
  end.

(** ** Machine integers *)

Definition size_t_modulus : N := 2 ^ 64.

Definition size_t_wrap (n : N) : N := n mod size_t_modulus.

(** [a + b] on [size_t]. *)
Definition size_t_add (a b : N) : N := size_t_wrap (a + b).

(** [a - b] on [size_t] (the result of an unsigned subtraction is taken
    modulo 2^64). *)
Definition size_t_sub (a b : N) : N :=
  size_t_wrap (size_t_wrap a + (size_t_modulus - size_t_wrap b)).

(** [max_size()] of the collection, here that of a [std::vector] of one-byte
    characters on a 64-bit platform ([PTRDIFF_MAX]); [resize] beyond it
    throws [std::length_error]. The properties below only use that it is
    below 2^63. *)
Definition collection_max_size : N := 2 ^ 63 - 1.

(** [static_cast<pos_type>(n)] for a [size_t] n: the stream offset is a signed
    64-bit integer. *)
Definition pos_type_of_size_t (n : N) : Z :=
  let z := Z.of_N (size_t_wrap n) in
  if (z <? 2 ^ 63)%Z then z else (z - 2 ^ 64)%Z.

(** [static_cast<size_t>(position)]. *)
Definition size_t_of_pos_type (position : Z) : N :=
  Z.to_N (position mod 2 ^ 64).

(** What the buffer needs from its character type [_CharType] and from
    [std::char_traits<_CharType>] (declared outside the sources). *)
Class char_traits (CharType : Type) : Type := {
  (** the value-initialised character: what [m_data.resize(n)] appends *)
  char_default : CharType;
  (** [static_cast<int_type>(ch)] *)
  to_int_type : CharType → Z;
  (** [traits::eof()] *)
  traits_eof : Z;
}.

(** Bytes ([uint8_t]), each represented by its value: [int_type] is [int] and
    [traits::eof()] is -1. *)
#[global] Instance uint8_traits : char_traits N := {
  char_default := 0;
  to_int_type := Z.of_N;
  traits_eof := (-1)%Z;
}.

(** ** std::ios_base *)

(** [std::ios_base::openmode] is a bitmask type; the two bits the buffer
    looks at (values of libstdc++). *)
Definition ios_base_in : N := 8.
Definition ios_base_out : N := 16.

(** [(mode & flag)] used as a condition. *)
Definition mode_has (mode flag : N) : bool := negb (N.land mode flag =? 0).

(** [std::ios_base::seekdir]; the last constructor stands for a value outside
    the three enumerators (the [default:] label of [seekoff]). *)
Inductive seekdir : Type :=
  | ios_base_beg
  | ios_base_cur
  | ios_base_end
  | ios_base_seekdir_other.

(** ** The buffer *)

Section ContainerBuffer.

Context `{CT : char_traits CharType}.

(** [m_stream_can_read] and [m_stream_can_write] are the two members of the
    base class [streambuf_state_manager] that the buffer consults through
    [can_read()], [can_write()] and [is_open()]. *)
Record basic_container_buffer : Type := mk_buffer {
  m_data : list CharType;
  m_current_position : N;
  m_size : N;
  m_stream_can_read : bool;
  m_stream_can_write : bool;
}.

Definition set_data (b : basic_container_buffer) (d : list CharType) :=
  mk_buffer d (m_current_position b) (m_size b)
            (m_stream_can_read b) (m_stream_can_write b).

Definition set_current_position (b : basic_container_buffer) (p : N) :=
  mk_buffer (m_data b) p (m_size b)
            (m_stream_can_read b) (m_stream_can_write b).

Definition set_size (b : basic_container_buffer) (s : N) :=
  mk_buffer (m_data b) (m_current_position b) s
            (m_stream_can_read b) (m_stream_can_write b).

(** [c.size()]. *)
Definition data_size (c : list CharType) : N := N.of_nat (length c).

(** *** The base class (astreambuf.h is not part of the sources) *)

(** Modelled from the spec: [streambuf_state_manager(mode)] is missing. The
    spec has one open/closed state per direction, [Open] after construction
    in the direction(s) named by the mode. *)
Definition streambuf_state_manager (mode : N) : bool * bool :=
  (mode_has mode ios_base_in, mode_has mode ios_base_out).

(** Modelled from the spec: [can_read()] is missing; the read direction is
    open. *)
Definition can_read (b : basic_container_buffer) : bool := m_stream_can_read b.

(** Modelled from the spec: [can_write()] is missing; the write direction is
    open. *)
Definition can_write (b : basic_container_buffer) : bool := m_stream_can_write b.

(** Modelled from the spec: [is_open()] is missing; the buffer is open when
    it is open in either direction, and fully closed otherwise. *)
Definition is_open (b : basic_container_buffer) : bool :=
  can_read b || can_write b.

(** Modelled from the spec: [_close_read()] is missing; closing a direction
    is terminal and idempotent. *)
Definition _close_read (b : basic_container_buffer) : basic_container_buffer :=
  mk_buffer (m_data b) (m_current_position b) (m_size b)
            false (m_stream_can_write b).

(** Modelled from the spec: [_close_write()] is missing. *)
Definition _close_write (b : basic_container_buffer) : basic_container_buffer :=
  mk_buffer (m_data b) (m_current_position b) (m_size b)
            (m_stream_can_read b) false.

(** *** Members of basic_container_buffer, in the order of the source *)

Definition collection (b : basic_container_buffer) : list CharType := m_data b.

(** [~basic_container_buffer()]: both directions are closed before the
    collection is released. *)
Definition destructor (b : basic_container_buffer) : basic_container_buffer :=
  _close_write (_close_read b).

Definition can_seek (b : basic_container_buffer) : bool := is_open b.

Definition buffer_size (b : basic_container_buffer) (direction : N) : N := 0.

Definition set_buffer_size (b : basic_container_buffer) (size direction : N)
  : basic_container_buffer := b.

(** The portable branch ([m_size - m_current_position]); the SafeInt branch
    computes the same number whenever the subtraction does not underflow. *)
Definition in_avail (b : basic_container_buffer) : N :=
  size_t_sub (m_size b) (m_current_position b).

Definition _sync (b : basic_container_buffer) : bool := true.

Definition resize_for_write (b : basic_container_buffer) (newPos : N)
  : outcome basic_container_buffer :=
  if m_size b <? newPos then
    if collection_max_size <? newPos then Throws length_error
    else Done (set_data b (resize (N.to_nat newPos) char_default (m_data b)))
  else Done b.

Definition update_current_position (b : basic_container_buffer) (newPos : N)
  : basic_container_buffer :=
  let b1 := set_current_position b newPos in
  if can_write b1 && (m_size b1 <? m_current_position b1)
  then set_size b1 (m_current_position b1)
  else b1.

(** [std::copy(ptr, ptr + count, begin(dst) + off)]: [ptr] is the caller's
    array; both ranges have to lie inside their arrays. *)
Definition std_copy_into (ptr : list CharType) (count : N)
    (dst : list CharType) (off : N) : outcome (list CharType) :=
  if (count <=? data_size ptr) && (off + count <=? data_size dst) then
    Done (take (N.to_nat off) dst ++ take (N.to_nat count) ptr
            ++ drop (N.to_nat (off + count)) dst)
  else Undefined.

(** [std::copy(begin(src) + first, begin(src) + last, ptr)]: the characters
    stored at [ptr[0 .. last - first)]. *)
Definition std_copy_from (src : list CharType) (first last : N)
  : outcome (list CharType) :=
  if (first <=? last) && (last <=? data_size src) then
    Done (take (N.to_nat (last - first)) (drop (N.to_nat first) src))
  else Undefined.

Definition write (b : basic_container_buffer) (ptr : list CharType) (count : N)
  : outcome (N * basic_container_buffer) :=
  if negb (can_write b) || (count =? 0) then Done (0, b)
  else
    let newSize := size_t_add (m_current_position b) count in
    b1 ← resize_for_write b newSize;
    d ← std_copy_into ptr count (m_data b1) (m_current_position b1);
    Done (count, update_current_position (set_data b1 d) newSize).

Definition _putc (b : basic_container_buffer) (ch : CharType)
  : outcome (Z * basic_container_buffer) :=
  '(n, b') ← write b [ch] 1;
  Done (if n =? 1 then to_int_type ch else traits_eof, b').

Definition _putn (b : basic_container_buffer) (ptr : list CharType) (count : N)
  : outcome (N * basic_container_buffer) :=
  write b ptr count.

(** The pointer [&m_data[i]] is the index [i]; [None] is the [nullptr] of
    the guard. Where the collection is empty and has no array, the address
    [&m_data[0]] that the source computes is the null pointer as well: the
    index 0 of an empty collection stands for that address, and nothing
    below is stated about the pointer of an empty collection. *)
Definition alloc (b : basic_container_buffer) (count : N)
  : outcome (option N * basic_container_buffer) :=
  if negb (can_write b) then Done (None, b)
  else
    b1 ← resize_for_write b (size_t_add (m_current_position b) count);
    Done (Some (m_current_position b1), b1).

Definition commit (b : basic_container_buffer) (actual : N)
  : basic_container_buffer :=
  update_current_position b (size_t_add (m_current_position b) actual).

(** [ptr] and [count] are reference parameters: the call returns its result
    and their values after the call. *)
Definition acquire (b : basic_container_buffer) (ptr : option N) (count : N)
  : bool * option N * N :=
  if negb (can_read b) then (false, ptr, count)
  else
    let count := in_avail b in
    if 0 <? count then (true, Some (m_current_position b), count)
    else (negb (is_open b), None, count).

Definition release (b : basic_container_buffer) (count : N)
  : basic_container_buffer :=
  update_current_position b (size_t_add (m_current_position b) count).

Definition can_satisfy (b : basic_container_buffer) (count : N) : bool :=
  0 <? in_avail b.

(** The call returns the number of characters copied, the characters it
    stored at [ptr[0 ..)], and the buffer after the call. [SafeSize] is a
    checked [size_t]; its [Min] and [+] are the plain ones whenever the sum
    does not overflow, which is the case whenever the cursor does not exceed
    the committed size. The destination [ptr] is the caller's array of
    [count] characters ([_Out_writes_ (count)]); [read] returns what the
    call stores there, and [read_into] below writes the array out. *)
Definition read (b : basic_container_buffer) (count : N) (advance : bool)
  : outcome (N * list CharType * basic_container_buffer) :=
  if negb (can_satisfy b count) then Done (0, [], b)
  else
    let request_size := count in
    let read_size := N.min request_size (in_avail b) in
    let newPos := size_t_add (m_current_position b) read_size in
    copied ← std_copy_from (m_data b) (m_current_position b) newPos;
    Done (read_size, copied,
          if advance then update_current_position b newPos else b).

(** [read] with the caller's array written out: [dest] is the array at
    [ptr]. [std::copy (readBegin, readEnd, ptr)] stores the characters at
    [dest[0 .. read_size)] and leaves the rest of [dest] as it was; the copy
    is out of range when [dest] is shorter than that. *)
Definition read_into (b : basic_container_buffer) (dest : list CharType)
    (count : N) (advance : bool)
  : outcome (N * list CharType * basic_container_buffer) :=
  '(read_size, copied, b') ← read b count advance;
  dest' ← std_copy_into copied read_size dest 0;
  Done (read_size, dest', b').

Definition read_byte (b : basic_container_buffer) (advance : bool)
  : outcome (Z * basic_container_buffer) :=
  '(read_size, value, b') ← read b 1 advance;
  Done (if read_size =? 1
        then match value with
             | c :: _ => to_int_type c
             | [] => traits_eof
             end
        else traits_eof, b').

Definition _getn (b : basic_container_buffer) (count : N) := read b count true.
Definition _sgetn (b : basic_container_buffer) (count : N) := read b count true.
Definition _scopy (b : basic_container_buffer) (count : N) := read b count false.
Definition _bumpc (b : basic_container_buffer) := read_byte b true.
Definition _sbumpc (b : basic_container_buffer) := read_byte b true.
Definition _getc (b : basic_container_buffer) := read_byte b false.
Definition _sgetc (b : basic_container_buffer) := read_byte b false.

Definition _nextc (b : basic_container_buffer)
  : outcome (Z * basic_container_buffer) :=
  '(_, b1) ← read_byte b true;
  read_byte b1 false.

Definition seekpos (b : basic_container_buffer) (position : Z) (mode : N)
  : outcome (Z * basic_container_buffer) :=
  let beg := 0%Z in
  let end_ := pos_type_of_size_t (m_size b) in
  let write_head (pos : N) :=
    if mode_has mode ios_base_out && can_write b then
      b1 ← resize_for_write b pos;
      let b2 := update_current_position b1 pos in
      Done (pos_type_of_size_t (m_current_position b2), b2)
    else Done (traits_eof, b) in
  if (beg <=? position)%Z then
    let pos := size_t_of_pos_type position in
    if mode_has mode ios_base_in && can_read b then
      if (position <=? end_)%Z then
        let b1 := update_current_position b pos in
        Done (pos_type_of_size_t (m_current_position b1), b1)
      else write_head pos
    else write_head pos
  else Done (traits_eof, b).

Definition seekoff (b : basic_container_buffer) (offset : Z) (way : seekdir)
    (mode : N) : outcome (Z * basic_container_buffer) :=
  let beg := 0%Z in
  let cur := pos_type_of_size_t (m_current_position b) in
  let end_ := pos_type_of_size_t (m_size b) in
  match way with
  | ios_base_beg => seekpos b (beg + offset) mode
  | ios_base_cur => seekpos b (cur + offset) mode
  | ios_base_end => seekpos b (end_ + offset) mode
  | ios_base_seekdir_other => Done (traits_eof, b)
  end.

(** Modelled from the spec: [getc()], the public entry point of the base
    class, is missing; a character operation on a closed direction reports
    the end-of-stream sentinel, otherwise it peeks ([_getc]). *)
Definition getc (b : basic_container_buffer)
  : outcome (Z * basic_container_buffer) :=
  if can_read b then _getc b else Done (traits_eof, b).

Definition _ungetc (b : basic_container_buffer)
  : outcome (Z * basic_container_buffer) :=
  '(pos, b1) ← seekoff b (-1) ios_base_cur ios_base_in;
  if (pos =? traits_eof)%Z then Done (traits_eof, b1)
  else getc b1.

(** *** Constructors *)

Definition validate_mode (mode : N) : outcome unit :=
  if mode_has mode ios_base_in && mode_has mode ios_base_out
  then Throws invalid_argument
  else Done tt.

(** [basic_container_buffer(std::ios_base::openmode mode)]. *)
Definition basic_container_buffer_empty (mode : N)
  : outcome basic_container_buffer :=
  let '(r, w) := streambuf_state_manager mode in
  Done (mk_buffer [] 0 0 r w).

(** [basic_container_buffer(_CollectionType data, std::ios_base::openmode mode)]. *)
Definition basic_container_buffer_from (data : list CharType) (mode : N)
  : outcome basic_container_buffer :=
  let '(r, w) := streambuf_state_manager mode in
  let b := mk_buffer data
             (if mode_has mode ios_base_in then 0 else data_size data)
             (data_size data) r w in
  _ ← validate_mode mode;
  Done b.

(** The two constructors of the reference-counted [container_buffer]. *)
Definition container_buffer_from (data : list CharType) (mode : N) :=
  basic_container_buffer_from data mode.

Definition container_buffer_empty (mode : N) :=
  basic_container_buffer_empty mode.

(** *** The calls as a state machine *)

(** One call on the buffer. [op_store] is not a member function: it is the
    caller writing [d] through the pointer [&m_data[m_current_position]] that
    [alloc] returned. *)
Inductive operation : Type :=
  | op_write (ptr : list CharType) (count : N)
  | op_putc (ch : CharType)
  | op_read (count : N) (advance : bool)
  | op_read_byte (advance : bool)
  | op_nextc
  | op_ungetc
  | op_seekpos (position : Z) (mode : N)
  | op_seekoff (offset : Z) (way : seekdir) (mode : N)
  | op_alloc (count : N)
  | op_store (d : list CharType)
  | op_commit (actual : N)
  | op_acquire
  | op_release (count : N)
  | op_close_read
  | op_close_write.

(** The caller fills the region handed out by [alloc]: [p] is the returned
    pointer, [d] the [count] characters stored there. *)
Definition store_through (b : basic_container_buffer) (p : N)
    (d : list CharType) (count : N) : outcome basic_container_buffer :=
  data ← std_copy_into d count (m_data b) p;
  Done (set_data b data).

(** The buffer after one call. *)
Definition step (op : operation) (b : basic_container_buffer)
  : outcome basic_container_buffer :=
  match op with
  | op_write ptr count => '(_, b') ← _putn b ptr count; Done b'
  | op_putc ch => '(_, b') ← _putc b ch; Done b'
  | op_read count advance => '(_, _, b') ← read b count advance; Done b'
  | op_read_byte advance => '(_, b') ← read_byte b advance; Done b'
  | op_nextc => '(_, b') ← _nextc b; Done b'
  | op_ungetc => '(_, b') ← _ungetc b; Done b'
  | op_seekpos position mode => '(_, b') ← seekpos b position mode; Done b'
  | op_seekoff offset way mode => '(_, b') ← seekoff b offset way mode; Done b'
  | op_alloc count => '(_, b') ← alloc b count; Done b'
  | op_store d =>
      if can_write b then store_through b (m_current_position b) d (data_size d)
      else Undefined
  | op_commit actual => Done (commit b actual)
  | op_acquire => Done b
  | op_release count => Done (release b count)
  | op_close_read => Done (_close_read b)
  | op_close_write => Done (_close_write b)
  end.

Fixpoint run (ops : list operation) (b : basic_container_buffer)
  : outcome basic_container_buffer :=
  match ops with
  | [] => Done b
  | op :: ops' => b' ← step op b; run ops' b'
  end.

(** The two conditions asserted at the end of [update_current_position]. *)
Definition buffer_invariant (b : basic_container_buffer) : Prop :=
  m_current_position b ≤ m_size b ∧ m_size b ≤ data_size (m_data b).

(** A buffer whose collection is one that can exist. *)
Definition buffer_wf (b : basic_container_buffer) : Prop :=
  buffer_invariant b ∧ data_size (m_data b) ≤ collection_max_size.

(** The two calls that pass [m_current_position + count] to
    [update_current_position] without comparing [count] with anything:
    [commit] and [release]. *)
Definition advances_unchecked (op : operation) : bool :=
  match op with
  | op_commit _ | op_release _ => true
  | _ => false
  end.

(** The calls that can reach [resize_for_write]. *)
Definition may_resize (op : operation) : bool :=
  match op with
  | op_write _ _ | op_putc _ | op_seekpos _ _ | op_seekoff _ _ _
  | op_alloc _ => true
  | _ => false
  end.

(** What a call leaves alone on a buffer that is not open for writing. *)
Definition read_only_frame (b b' : basic_container_buffer) : Prop :=
  can_write b' = false ∧ m_size b' = m_size b ∧ m_data b' = m_data b.

(** A sequence of [write] calls, and what it is asked to write. *)
Fixpoint write_all (b : basic_container_buffer)
    (ws : list (list CharType * N)) : outcome basic_container_buffer :=
  match ws with
  | [] => Done b
  | (ptr, count) :: ws' => '(_, b') ← write b ptr count; write_all b' ws'
  end.

Definition written (ws : list (list CharType * N)) : list CharType :=
  concat (map (λ w, take (N.to_nat w.2) w.1) ws).

Definition total_count (ws : list (list CharType * N)) : N :=
  foldr (λ w acc, w.2 + acc) 0 ws.

(** A traversal by successive [read] calls with the given counts: all the
    characters read, in order, and the buffer afterwards. *)
Fixpoint read_chunks (b : basic_container_buffer) (counts : list N)
  : outcome (list CharType * basic_container_buffer) :=
  match counts with
  | [] => Done ([], b)
  | count :: counts' =>
      '(_, d, b1) ← read b count true;
      '(ds, b2) ← read_chunks b1 counts';
      Done (d ++ ds, b2)
  end.

(** [alloc(n)], the caller filling the returned region with the first [n]
    characters of [d], then [commit(n)]. A caller that is handed [nullptr]
    has nothing to fill or commit. *)
Definition alloc_fill_commit (b : basic_container_buffer)
    (d : list CharType) (n : N) : outcome basic_container_buffer :=
  '(p, b1) ← alloc b n;
  match p with
  | None => Done b1
  | Some i => b2 ← store_through b1 i d n; Done (commit b2 n)
  end.

(** *** The stream factories and the zero-copy read path *)

(** [container_stream::open_istream(data)] and [bytestream::open_istream(data)]
    wrap [buffer_type(std::move(data), std::ios_base::in)] in an input
    stream; the stream facade is declared outside the sources, the result
    here is the buffer the stream is built on. *)
Definition open_istream (data : list CharType)
  : outcome basic_container_buffer :=
  container_buffer_from data ios_base_in.

(** [container_stream::open_ostream()] wraps
    [buffer_type(std::ios_base::out)]; [bytestream::open_ostream()] wraps
    [container_buffer<_CollectionType>()], whose mode defaults to
    [std::ios_base::out]. *)
Definition open_ostream : outcome basic_container_buffer :=
  container_buffer_empty ios_base_out.

(** The caller reads [count] characters through the pointer [p] that
    [acquire] handed out. *)
Definition load_through (b : basic_container_buffer) (p count : N)
  : outcome (list CharType) :=
  std_copy_from (m_data b) p (p + count).

(** [acquire], the caller consuming the first [k] characters of the view,
    then [release(ptr, k)]. A caller that is told there is no view (false, or
    a null pointer) consumes nothing and releases nothing. *)
Definition acquire_consume_release (b : basic_container_buffer) (k : N)
  : outcome (list CharType * basic_container_buffer) :=
  match acquire b None 0 with
  | (true, Some p, _) => d ← load_through b p k; Done (d, release b k)
  | _ => Done ([], b)
  end.


(** The calls that are no call of the write side and no store of the
    caller: reads, peeks, unget, acquire, release and the closes. *)
Definition reads_only (op : operation) : bool :=
  match op with
  | op_read _ _ | op_read_byte _ | op_nextc | op_ungetc | op_acquire
  | op_release _ | op_close_read | op_close_write => true
  | _ => false
  end.

End ContainerBuffer.

(** * Properties *)

(** ** Machine arithmetic without wrap-around *)

Lemma size_t_modulus_eq : size_t_modulus = 18446744073709551616.
Proof. reflexivity. Qed.

Lemma collection_max_size_eq : collection_max_size = 9223372036854775807.
Proof. reflexivity. Qed.

Ltac size_facts :=
  pose proof size_t_modulus_eq; pose proof collection_max_size_eq.

Lemma size_t_wrap_small n : n < size_t_modulus → size_t_wrap n = n.
Proof. apply N.mod_small. Qed.

Lemma size_t_add_small a b :
  a + b < size_t_modulus → size_t_add a b = a + b.
Proof. apply size_t_wrap_small. Qed.

Lemma size_t_sub_small a b :
  b ≤ a → a < size_t_modulus → size_t_sub a b = a - b.
Proof.
  intros Hba Ha. unfold size_t_sub.
  rewrite (size_t_wrap_small a), (size_t_wrap_small b) by lia.
  replace (a + (size_t_modulus - b)) with (a - b + 1 * size_t_modulus) by lia.
  unfold size_t_wrap. rewrite N.Div0.mod_add. apply N.mod_small. lia.
Qed.

Lemma pos_type_of_size_t_small n :
  n ≤ collection_max_size → pos_type_of_size_t n = Z.of_N n.
Proof.
  intros Hn. size_facts. unfold pos_type_of_size_t.
  rewrite size_t_wrap_small by lia. cbv zeta.
  change (2 ^ 63)%Z with 9223372036854775808%Z.
  destruct (Z.ltb_spec (Z.of_N n) 9223372036854775808); lia.
Qed.

Lemma size_t_of_pos_type_small p :
  (0 ≤ p)%Z → (p < 2 ^ 64)%Z → size_t_of_pos_type p = Z.to_N p.
Proof. intros. unfold size_t_of_pos_type. by rewrite Z.mod_small. Qed.

Section Properties.

Context `{CT : char_traits CharType}.

Implicit Types (b : @basic_container_buffer CharType) (ptr d : list CharType).
Implicit Types (count n : N).

(** Case analysis on the comparisons a definition branches on. *)
Ltac case_cmp :=
  repeat match goal with
    | |- context [N.ltb ?x ?y] => destruct (N.ltb_spec x y)
    | |- context [N.leb ?x ?y] => destruct (N.leb_spec x y)
    | |- context [N.eqb ?x ?y] => destruct (N.eqb_spec x y)
    | |- context [Z.ltb ?x ?y] => destruct (Z.ltb_spec x y)
    | |- context [Z.leb ?x ?y] => destruct (Z.leb_spec x y)
    | |- context [Z.eqb ?x ?y] => destruct (Z.eqb_spec x y)
    end.

(** ** The helpers of the buffer *)

Lemma data_size_app (l k : list CharType) :
  data_size (l ++ k) = data_size l + data_size k.
Proof. unfold data_size. rewrite length_app. lia. Qed.

Lemma data_size_take (l : list CharType) n :
  n ≤ data_size l → data_size (take (N.to_nat n) l) = n.
Proof. unfold data_size. rewrite length_take. lia. Qed.

Lemma data_size_drop (l : list CharType) n :
  data_size (drop (N.to_nat n) l) = data_size l - n.
Proof. unfold data_size. rewrite length_drop. lia. Qed.

Lemma data_size_resize (l : list CharType) n x :
  data_size (resize (N.to_nat n) x l) = n.
Proof. unfold data_size. rewrite length_resize. lia. Qed.

Lemma update_current_position_eq b p :
  update_current_position b p =
  mk_buffer (m_data b) p
    (if can_write b && (m_size b <? p) then p else m_size b)
    (m_stream_can_read b) (m_stream_can_write b).
Proof.
  unfold update_current_position, can_write, set_size, set_current_position.
  simpl. by destruct (m_stream_can_write b), (m_size b <? p).
Qed.

Lemma update_current_position_within b p :
  p ≤ m_size b → update_current_position b p = set_current_position b p.
Proof.
  intros Hp. rewrite update_current_position_eq. unfold set_current_position.
  case_cmp; [lia|]. by rewrite andb_false_r.
Qed.

Lemma in_avail_eq b :
  m_current_position b ≤ m_size b → m_size b < size_t_modulus →
  in_avail b = m_size b - m_current_position b.
Proof. intros. unfold in_avail. by apply size_t_sub_small. Qed.

Lemma buffer_wf_bounds b :
  buffer_wf b →
  m_current_position b ≤ m_size b
  ∧ m_size b ≤ data_size (m_data b)
  ∧ data_size (m_data b) < size_t_modulus
  ∧ data_size (m_data b) ≤ collection_max_size.
Proof. intros [[??] ?]. size_facts. lia. Qed.

Lemma resize_for_write_eq b newPos :
  newPos ≤ collection_max_size →
  resize_for_write b newPos =
  Done (if m_size b <? newPos
        then set_data b (resize (N.to_nat newPos) char_default (m_data b))
        else b).
Proof. intros. unfold resize_for_write. case_cmp; done || lia. Qed.

Lemma std_copy_into_eq ptr count (dst : list CharType) off :
  count ≤ data_size ptr → off + count ≤ data_size dst →
  std_copy_into ptr count dst off =
  Done (take (N.to_nat off) dst ++ take (N.to_nat count) ptr
          ++ drop (N.to_nat (off + count)) dst).
Proof. intros. unfold std_copy_into. case_cmp; done || lia. Qed.

Lemma std_copy_into_size ptr count (dst d' : list CharType) off :
  std_copy_into ptr count dst off = Done d' → data_size d' = data_size dst.
Proof.
  unfold std_copy_into. case_cmp; simpl; [|done..]. intros [= <-].
  rewrite !data_size_app, !data_size_take, data_size_drop by lia. lia.
Qed.

Lemma std_copy_from_eq (src : list CharType) first last :
  first ≤ last → last ≤ data_size src →
  std_copy_from src first last =
  Done (take (N.to_nat (last - first)) (drop (N.to_nat first) src)).
Proof. intros. unfold std_copy_from. case_cmp; done || lia. Qed.

(** ** write *)

(** The closed form of a [write] that is carried out. *)
Lemma write_done b ptr count :
  buffer_wf b → can_write b = true → count ≠ 0 →
  count ≤ data_size ptr →
  m_current_position b + count ≤ collection_max_size →
  write b ptr count =
  Done (count,
        mk_buffer
          (take (N.to_nat (m_current_position b)) (m_data b)
             ++ take (N.to_nat count) ptr
             ++ (if m_size b <? m_current_position b + count then []
                 else drop (N.to_nat (m_current_position b + count)) (m_data b)))
          (m_current_position b + count)
          (N.max (m_size b) (m_current_position b + count))
          (m_stream_can_read b) true).
Proof.
  intros Hwf Hw Hcount Hptr Hmax.
  destruct (buffer_wf_bounds b Hwf) as (Hcur & Hsize & Hmod & Hlen).
  size_facts. unfold write. rewrite Hw. simpl.
  destruct (N.eqb_spec count 0) as [|_]; [done|].
  rewrite size_t_add_small by lia.
  rewrite resize_for_write_eq by lia. simpl.
  destruct (N.ltb_spec (m_size b) (m_current_position b + count)) as [Hgrow|Hfit].
  - simpl. rewrite std_copy_into_eq; [|done|by rewrite data_size_resize].
    simpl. rewrite update_current_position_eq. simpl. unfold can_write. simpl.
    unfold can_write in Hw. rewrite Hw. simpl.
    destruct (N.ltb_spec (m_size b) (m_current_position b + count)); [|lia].
    do 2 f_equal. f_equal; [|lia].
    rewrite take_resize_le, resize_le by (unfold data_size in *; lia).
    do 2 f_equal. apply drop_ge. rewrite length_resize. lia.
  - rewrite std_copy_into_eq by (done || lia).
    simpl. rewrite update_current_position_eq. simpl. unfold can_write. simpl.
    unfold can_write in Hw. rewrite Hw. simpl.
    destruct (N.ltb_spec (m_size b) (m_current_position b + count)); [lia|].
    by rewrite N.max_l.
Qed.

(** C2 (amended). A [write] returns 0 and changes nothing when the buffer is
    not open for writing or [count] is 0. Otherwise it returns the full
    [count]; when [cursor + count] exceeds the committed size the collection
    is resized to exactly [cursor + count] (extending it, or dropping an
    uncommitted tail left by [alloc]; never cutting below the committed
    size) and is left alone otherwise; the [count] characters are stored at
    the cursor, everything before the cursor is kept, the cursor advances by
    [count], and the committed size is raised to the cursor if the cursor
    passed it. *)
Theorem write_resizes_to_write_head b ptr count :
  buffer_wf b →
  count ≤ data_size ptr →
  m_current_position b + count ≤ collection_max_size →
  (can_write b = false ∨ count = 0 → write b ptr count = Done (0, b))
  ∧ (can_write b = true ∧ count ≠ 0 →
     ∃ b',
       write b ptr count = Done (count, b')
       ∧ data_size (m_data b') =
           (if m_size b <? m_current_position b + count
            then m_current_position b + count
            else data_size (m_data b))
       ∧ m_size b ≤ data_size (m_data b')
       ∧ take (N.to_nat (m_current_position b)) (m_data b') =
           take (N.to_nat (m_current_position b)) (m_data b)
       ∧ take (N.to_nat count)
           (drop (N.to_nat (m_current_position b)) (m_data b')) =
           take (N.to_nat count) ptr
       ∧ (m_current_position b + count ≤ m_size b →
          drop (N.to_nat (m_current_position b + count)) (m_data b') =
          drop (N.to_nat (m_current_position b + count)) (m_data b))
       ∧ m_current_position b' = m_current_position b + count
       ∧ m_size b' = N.max (m_size b) (m_current_position b + count)
       ∧ can_read b' = can_read b
       ∧ can_write b' = true).
Proof.
  intros Hwf Hptr Hmax. split.
  - intros [Hw | ->]; unfold write.
    + by rewrite Hw.
    + by rewrite orb_true_r.
  - intros [Hw Hcount].
    destruct (buffer_wf_bounds b Hwf) as (Hcur & Hsize & Hmod & Hlen).
    eexists. split; [by apply write_done|]. simpl.
    assert (Hpre : length (take (N.to_nat (m_current_position b)) (m_data b))
                   = N.to_nat (m_current_position b)).
    { rewrite length_take. unfold data_size in *. lia. }
    assert (Hmid : length (take (N.to_nat count) ptr) = N.to_nat count).
    { rewrite length_take. unfold data_size in *. lia. }
    repeat split.
    + rewrite !data_size_app, !data_size_take by lia.
      case_cmp; [unfold data_size; simpl; lia|].
      rewrite data_size_drop. lia.
    + rewrite !data_size_app, !data_size_take by lia.
      case_cmp; [unfold data_size; simpl; lia|].
      rewrite data_size_drop. lia.
    + by rewrite take_app_length'.
    + rewrite drop_app_length' by done. by rewrite take_app_length'.
    + intros Hfit. destruct (N.ltb_spec (m_size b) (m_current_position b + count));
        [lia|].
      rewrite app_assoc, drop_app_length'; [done|].
      rewrite length_app, Hpre, Hmid. lia.
Qed.

(** ** read *)

(** The closed form of [read] on a well-formed buffer. *)
Lemma read_eq b count advance :
  buffer_wf b →
  read b count advance =
  if m_current_position b =? m_size b then Done (0, [], b)
  else
    let n := N.min count (m_size b - m_current_position b) in
    Done (n,
          take (N.to_nat n) (drop (N.to_nat (m_current_position b)) (m_data b)),
          if advance then set_current_position b (m_current_position b + n)
          else b).
Proof.
  intros Hwf.
  destruct (buffer_wf_bounds b Hwf) as (Hcur & Hsize & Hmod & Hlen).
  unfold read, can_satisfy. rewrite in_avail_eq by lia.
  destruct (N.eqb_spec (m_current_position b) (m_size b)) as [Heq|Hne].
  - rewrite Heq, N.sub_diag. done.
  - destruct (N.ltb_spec 0 (m_size b - m_current_position b)); [|lia]. simpl.
    set (n := N.min count (m_size b - m_current_position b)).
    assert (n ≤ m_size b - m_current_position b) by (unfold n; lia).
    rewrite size_t_add_small by lia.
    rewrite std_copy_from_eq by lia. simpl.
    replace (m_current_position b + n - m_current_position b) with n by lia.
    rewrite update_current_position_within by lia. done.
Qed.

(** C3 (amended). [read] does not itself test whether the buffer is open for
    reading (that gate is left to its callers): it returns 0, storing
    nothing and moving nothing, when [cursor = committed_size]; otherwise it
    copies [n = min(count, committed_size - cursor)] characters starting at
    the cursor, moves the cursor forward by [n] if and only if [advance] is
    set, and returns [n]. *)
Theorem read_copies_available_prefix b count advance :
  buffer_wf b →
  (m_current_position b = m_size b → read b count advance = Done (0, [], b))
  ∧ (m_current_position b ≠ m_size b →
     let n := N.min count (m_size b - m_current_position b) in
     read b count advance =
     Done (n,
           take (N.to_nat n) (drop (N.to_nat (m_current_position b)) (m_data b)),
           if advance then set_current_position b (m_current_position b + n)
           else b)).
Proof.
  intros Hwf. rewrite read_eq by done. split.
  - intros ->. by rewrite N.eqb_refl.
  - intros Hne. by destruct (N.eqb_spec (m_current_position b) (m_size b)).
Qed.

(** ** seek *)

Lemma seekoff_resolves b offset mode :
  buffer_wf b →
  seekoff b offset ios_base_beg mode = seekpos b offset mode
  ∧ seekoff b offset ios_base_cur mode
    = seekpos b (Z.of_N (m_current_position b) + offset) mode
  ∧ seekoff b offset ios_base_end mode
    = seekpos b (Z.of_N (m_size b) + offset) mode.
Proof.
  intros Hwf.
  destruct (buffer_wf_bounds b Hwf) as (Hcur & Hsize & Hmod & Hlen).
  unfold seekoff. by rewrite !pos_type_of_size_t_small by lia.
Qed.

Lemma seekpos_before_begin b position mode :
  (position < 0)%Z → seekpos b position mode = Done (traits_eof, b).
Proof. intros. unfold seekpos. case_cmp; done || lia. Qed.

Lemma seekpos_read_head b position mode :
  buffer_wf b → can_read b = true → mode_has mode ios_base_in = true →
  (0 ≤ position ≤ Z.of_N (m_size b))%Z →
  seekpos b position mode =
  Done (position, set_current_position b (Z.to_N position)).
Proof.
  intros Hwf Hr Hm Hpos.
  destruct (buffer_wf_bounds b Hwf) as (Hcur & Hsize & Hmod & Hlen).
  size_facts. unfold seekpos. rewrite Hr, Hm. simpl.
  rewrite pos_type_of_size_t_small by lia.
  rewrite size_t_of_pos_type_small by (change (2 ^ 64)%Z with 18446744073709551616%Z; lia).
  case_cmp; try lia.
  rewrite update_current_position_within by lia. simpl.
  rewrite pos_type_of_size_t_small by lia. by rewrite Z2N.id by lia.
Qed.

Lemma seekpos_read_head_beyond b position mode :
  buffer_wf b → can_write b = false →
  (Z.of_N (m_size b) < position)%Z →
  seekpos b position mode = Done (traits_eof, b).
Proof.
  intros Hwf Hw Hpos.
  destruct (buffer_wf_bounds b Hwf) as (Hcur & Hsize & Hmod & Hlen).
  unfold seekpos. rewrite Hw, !andb_false_r.
  rewrite pos_type_of_size_t_small by lia.
  case_cmp; try lia; by destruct (_ && _).
Qed.

Lemma seekpos_write_head b position mode :
  buffer_wf b → can_write b = true → can_read b = false →
  mode_has mode ios_base_out = true →
  (0 ≤ position ≤ Z.of_N collection_max_size)%Z →
  seekpos b position mode =
  Done (position,
        mk_buffer
          (if m_size b <? Z.to_N position
           then resize (Z.to_nat position) char_default (m_data b)
           else m_data b)
          (Z.to_N position)
          (N.max (m_size b) (Z.to_N position))
          false true).
Proof.
  intros Hwf Hw Hr Hm Hpos.
  destruct (buffer_wf_bounds b Hwf) as (Hcur & Hsize & Hmod & Hlen).
  size_facts. unfold seekpos. rewrite Hw, Hr, Hm, andb_false_r. simpl.
  rewrite size_t_of_pos_type_small by (change (2 ^ 64)%Z with 18446744073709551616%Z; lia).
  destruct (Z.leb_spec 0 position); [|lia].
  rewrite resize_for_write_eq by lia. simpl.
  rewrite update_current_position_eq.
  unfold can_read, can_write in *.
  destruct (N.ltb_spec (m_size b) (Z.to_N position)); simpl;
    rewrite Hw, Hr; simpl.
  - destruct (N.ltb_spec (m_size b) (Z.to_N position)); [|lia].
    rewrite pos_type_of_size_t_small, Z2N.id, N.max_r by lia.
    by rewrite Z_N_nat.
  - destruct (N.ltb_spec (m_size b) (Z.to_N position)); [lia|].
    by rewrite pos_type_of_size_t_small, Z2N.id, N.max_l by lia.
Qed.

(** C4 (amended). A seek resolves its direction (absolute, relative to the
    cursor, relative to the end with end = committed size) to an absolute
    target. On a buffer open for reading only, a seek of the read head
    succeeds exactly when [0 ≤ target ≤ committed_size]: it moves the cursor
    to the target and returns it; otherwise it returns the end-of-stream
    sentinel and leaves the buffer unchanged. On a buffer open for writing
    only, a seek of the write head to any target from 0 up to the largest
    size of a collection succeeds and moves the cursor to the target; when
    the target exceeds the committed size, the collection is resized to
    exactly the target and the committed size becomes the target: the
    positions at or beyond the previous length of the collection are
    default-initialised, the positions the collection already had keep their
    contents, so that the whole gap is default-initialised when the
    collection held no uncommitted tail. *)
Theorem seek_moves_head_within_extent b offset target mode :
  buffer_wf b →
  (seekoff b offset ios_base_beg mode = seekpos b offset mode
   ∧ seekoff b offset ios_base_cur mode
     = seekpos b (Z.of_N (m_current_position b) + offset) mode
   ∧ seekoff b offset ios_base_end mode
     = seekpos b (Z.of_N (m_size b) + offset) mode)
  ∧ (can_read b = true → can_write b = false →
     mode_has mode ios_base_in = true →
     ((0 ≤ target ≤ Z.of_N (m_size b))%Z →
      seekpos b target mode
      = Done (target, set_current_position b (Z.to_N target)))
     ∧ (¬ (0 ≤ target ≤ Z.of_N (m_size b))%Z →
        seekpos b target mode = Done (traits_eof, b)))
  ∧ (can_write b = true → can_read b = false →
     mode_has mode ios_base_out = true →
     (0 ≤ target ≤ Z.of_N collection_max_size)%Z →
     ∃ b',
       seekpos b target mode = Done (target, b')
       ∧ m_current_position b' = Z.to_N target
       ∧ m_size b' = N.max (m_size b) (Z.to_N target)
       ∧ can_read b' = false ∧ can_write b' = true
       ∧ (Z.to_N target ≤ m_size b → m_data b' = m_data b)
       ∧ (m_size b < Z.to_N target →
          m_data b' =
            take (Z.to_nat target) (m_data b)
              ++ replicate (Z.to_nat target - length (m_data b)) char_default)
       ∧ (m_size b < Z.to_N target → m_size b = data_size (m_data b) →
          m_data b' =
            m_data b
              ++ replicate (Z.to_nat target - N.to_nat (m_size b)) char_default)).
Proof.
  intros Hwf. split; [by apply seekoff_resolves|]. split.
  - intros Hr Hw Hm. split.
    + intros Hin. by apply seekpos_read_head.
    + intros Hout. destruct (Z.lt_ge_cases target 0).
      * by apply seekpos_before_begin.
      * apply seekpos_read_head_beyond; [done..|lia].
  - intros Hw Hr Hm Hin. eexists. split; [by apply seekpos_write_head|].
    simpl. repeat split.
    + intros Hle. by destruct (N.ltb_spec (m_size b) (Z.to_N target)); [lia|].
    + intros Hlt. destruct (N.ltb_spec (m_size b) (Z.to_N target)); [|lia].
      by rewrite resize_spec.
    + intros Hlt Hfull. destruct (N.ltb_spec (m_size b) (Z.to_N target)); [|lia].
      unfold data_size in Hfull.
      rewrite resize_ge by lia. do 2 f_equal. lia.
Qed.

(** ** What a call that returns has done to the buffer *)

Lemma mode_in_is_not_out : mode_has ios_base_in ios_base_out = false.
Proof. reflexivity. Qed.

Lemma resize_for_write_inv b newPos b1 :
  resize_for_write b newPos = Done b1 →
  m_current_position b1 = m_current_position b
  ∧ m_size b1 = m_size b
  ∧ m_stream_can_read b1 = m_stream_can_read b
  ∧ m_stream_can_write b1 = m_stream_can_write b
  ∧ ((newPos ≤ m_size b ∧ m_data b1 = m_data b)
     ∨ (m_size b < newPos ∧ newPos ≤ collection_max_size
        ∧ m_data b1 = resize (N.to_nat newPos) char_default (m_data b))).
Proof.
  unfold resize_for_write.
  destruct (N.ltb_spec (m_size b) newPos);
    [destruct (N.ltb_spec collection_max_size newPos)|];
    intros [= <-]; simpl; repeat split; auto.
Qed.

Lemma read_inv b count advance n d b' :
  read b count advance = Done (n, d, b') →
  b' = b
  ∨ (0 < in_avail b
     ∧ b' = update_current_position b
              (size_t_add (m_current_position b) (N.min count (in_avail b)))
     ∧ size_t_add (m_current_position b) (N.min count (in_avail b))
       ≤ data_size (m_data b)).
Proof.
  unfold read, can_satisfy. intros Hread.
  destruct (N.ltb_spec 0 (in_avail b)); simpl in Hread;
    [|injection Hread as <- <- <-; by left].
  destruct (std_copy_from _ _ _) as [copied| |] eqn:Hcopy; simpl in Hread;
    [|discriminate..].
  unfold std_copy_from in Hcopy.
  destruct (N.leb_spec (m_current_position b)
              (size_t_add (m_current_position b) (N.min count (in_avail b))));
    [|discriminate].
  destruct (N.leb_spec
              (size_t_add (m_current_position b) (N.min count (in_avail b)))
              (data_size (m_data b))); [|discriminate].
  injection Hread as <- <- <-. destruct advance; [right|left]; done.
Qed.

Lemma read_byte_inv b advance c b' :
  read_byte b advance = Done (c, b') →
  b' = b
  ∨ (0 < in_avail b
     ∧ b' = update_current_position b
              (size_t_add (m_current_position b) (N.min 1 (in_avail b)))
     ∧ size_t_add (m_current_position b) (N.min 1 (in_avail b))
       ≤ data_size (m_data b)).
Proof.
  unfold read_byte. intros Hread.
  destruct (read b 1 advance) as [[[n d] b1]| |] eqn:Hr; simpl in Hread;
    [|discriminate..].
  injection Hread as <- <-. by apply read_inv in Hr.
Qed.

Lemma write_inv b ptr count n b' :
  write b ptr count = Done (n, b') →
  (n = 0 ∧ b' = b)
  ∨ (can_write b = true ∧ n = count
     ∧ ∃ b1 d,
         resize_for_write b (size_t_add (m_current_position b) count) = Done b1
         ∧ data_size d = data_size (m_data b1)
         ∧ m_current_position b + count ≤ data_size (m_data b1)
         ∧ b' = update_current_position (set_data b1 d)
                  (size_t_add (m_current_position b) count)).
Proof.
  unfold write. intros Hwrite.
  destruct (can_write b) eqn:Hw; simpl in Hwrite;
    [|injection Hwrite as <- <-; by left].
  destruct (N.eqb_spec count 0); simpl in Hwrite;
    [injection Hwrite as <- <-; by left|].
  destruct (resize_for_write _ _) as [b1| |] eqn:Hresize; simpl in Hwrite;
    [|discriminate..].
  destruct (std_copy_into _ _ _ _) as [d| |] eqn:Hcopy; simpl in Hwrite;
    [|discriminate..].
  injection Hwrite as <- <-. right. repeat split. exists b1, d.
  repeat split; [by eapply std_copy_into_size| ].
  apply resize_for_write_inv in Hresize as (Hcur & _).
  unfold std_copy_into in Hcopy. rewrite Hcur in Hcopy.
  destruct (N.leb_spec count (data_size ptr)); [|discriminate].
  by destruct (N.leb_spec (m_current_position b + count) (data_size (m_data b1))).
Qed.

Lemma alloc_inv b count (p : option N) b' :
  alloc b count = Done (p, b') →
  b' = b
  ∨ (can_write b = true
     ∧ resize_for_write b (size_t_add (m_current_position b) count) = Done b').
Proof.
  unfold alloc. intros Halloc.
  destruct (can_write b); simpl in Halloc;
    [|injection Halloc as <- <-; by left].
  destruct (resize_for_write _ _) as [b1| |] eqn:Hresize; simpl in Halloc;
    [|discriminate..].
  injection Halloc as <- <-. by right.
Qed.

Lemma seekpos_inv b position mode r b' :
  seekpos b position mode = Done (r, b') →
  b' = b
  ∨ (mode_has mode ios_base_in = true ∧ can_read b = true
     ∧ (0 ≤ position ≤ pos_type_of_size_t (m_size b))%Z
     ∧ b' = update_current_position b (size_t_of_pos_type position))
  ∨ (mode_has mode ios_base_out = true ∧ can_write b = true
     ∧ ∃ b1,
         resize_for_write b (size_t_of_pos_type position) = Done b1
         ∧ b' = update_current_position b1 (size_t_of_pos_type position)).
Proof.
  unfold seekpos. intros Hseek.
  destruct (Z.leb_spec 0 position); [|injection Hseek as <- <-; by left].
  assert (Hwrite_head :
    (if mode_has mode ios_base_out && can_write b
     then b1 ← resize_for_write b (size_t_of_pos_type position);
          Done (pos_type_of_size_t
                  (m_current_position
                     (update_current_position b1 (size_t_of_pos_type position))),
                update_current_position b1 (size_t_of_pos_type position))
     else Done (traits_eof, b)) = Done (r, b') →
    b' = b
    ∨ (mode_has mode ios_base_out = true ∧ can_write b = true
       ∧ ∃ b1,
           resize_for_write b (size_t_of_pos_type position) = Done b1
           ∧ b' = update_current_position b1 (size_t_of_pos_type position))).
  { destruct (mode_has mode ios_base_out), (can_write b); simpl;
      try (intros [= <- <-]; by left).
    destruct (resize_for_write _ _) as [b1| |]; simpl; [|discriminate..].
    intros [= <- <-]. right. eauto. }
  destruct (mode_has mode ios_base_in), (can_read b); simpl in Hseek;
    try (apply Hwrite_head in Hseek as [?|?]; by auto).
  destruct (Z.leb_spec position (pos_type_of_size_t (m_size b)));
    [|apply Hwrite_head in Hseek as [?|?]; by auto].
  injection Hseek as <- <-. right. left. repeat split; auto.
Qed.

Lemma seekoff_inv b offset way mode r b' :
  seekoff b offset way mode = Done (r, b') →
  b' = b ∨ ∃ position, seekpos b position mode = Done (r, b').
Proof.
  unfold seekoff. destruct way; eauto. intros [= <- <-]. by left.
Qed.

(** Every call is built from [write], [read], [seekpos], [alloc], the
    caller's stores, [commit], [release] and the two closes: a relation
    between the buffer before and after that is reflexive, transitive and
    holds across each of them holds across every call. [C] is what is
    assumed of the caller. *)
Lemma step_by_primitives
    (C : operation → basic_container_buffer → Prop)
    (P : basic_container_buffer → basic_container_buffer → Prop) :
  (∀ b, P b b) →
  (∀ b1 b2 b3, P b1 b2 → P b2 b3 → P b1 b3) →
  (∀ b ptr count n b', write b ptr count = Done (n, b') → P b b') →
  (∀ b count advance n d b', read b count advance = Done (n, d, b') → P b b') →
  (∀ b position mode r b', seekpos b position mode = Done (r, b') → P b b') →
  (∀ b count p b', alloc b count = Done (p, b') → P b b') →
  (∀ b p d count b',
     can_write b = true → store_through b p d count = Done b' → P b b') →
  (∀ b actual, C (op_commit actual) b → P b (commit b actual)) →
  (∀ b count, C (op_release count) b → P b (release b count)) →
  (∀ b, P b (_close_read b)) →
  (∀ b, P b (_close_write b)) →
  ∀ op b b', C op b → step op b = Done b' → P b b'.
Proof.
  intros Hrefl Htrans Hwrite Hread Hseekpos Halloc Hstore Hcommit Hrelease
    Hcr Hcw.
  assert (Hread_byte : ∀ b advance c b',
            read_byte b advance = Done (c, b') → P b b').
  { intros b advance c b' Hrb. unfold read_byte in Hrb.
    destruct (read b 1 advance) as [[[n d] b1]| |] eqn:E; simpl in Hrb;
      [|discriminate..].
    injection Hrb as <- <-. eauto. }
  assert (Hseekoff : ∀ b offset way mode r b',
            seekoff b offset way mode = Done (r, b') → P b b').
  { intros b offset way mode r b' Hso.
    apply seekoff_inv in Hso as [->|[position Hsp]]; eauto. }
  intros op b b' HC Hstep. destruct op; simpl in Hstep.
  - unfold _putn in Hstep.
    destruct (write b ptr count) as [[n b1]| |] eqn:E; simpl in Hstep;
      [|discriminate..].
    injection Hstep as <-. eauto.
  - unfold _putc in Hstep.
    destruct (write b [ch] 1) as [[n b1]| |] eqn:E; simpl in Hstep;
      [|discriminate..].
    injection Hstep as <-. eauto.
  - destruct (read b count advance) as [[[n d] b1]| |] eqn:E; simpl in Hstep;
      [|discriminate..].
    injection Hstep as <-. eauto.
  - destruct (read_byte b advance) as [[c b1]| |] eqn:E; simpl in Hstep;
      [|discriminate..].
    injection Hstep as <-. eauto.
  - unfold _nextc in Hstep.
    destruct (read_byte b true) as [[c b1]| |] eqn:E1; simpl in Hstep;
      [|discriminate..].
    destruct (read_byte b1 false) as [[c2 b2]| |] eqn:E2; simpl in Hstep;
      [|discriminate..].
    injection Hstep as <-. eauto.
  - unfold _ungetc in Hstep.
    destruct (seekoff b (-1) ios_base_cur ios_base_in) as [[pos b1]| |] eqn:E1;
      simpl in Hstep; [|discriminate..].
    destruct (pos =? traits_eof)%Z; simpl in Hstep;
      [injection Hstep as <-; eauto|].
    unfold getc, _getc in Hstep.
    destruct (can_read b1); simpl in Hstep; [|injection Hstep as <-; eauto].
    destruct (read_byte b1 false) as [[c2 b2]| |] eqn:E2; simpl in Hstep;
      [|discriminate..].
    injection Hstep as <-. eauto.
  - destruct (seekpos b position mode) as [[r b1]| |] eqn:E; simpl in Hstep;
      [|discriminate..].
    injection Hstep as <-. eauto.
  - destruct (seekoff b offset way mode) as [[r b1]| |] eqn:E; simpl in Hstep;
      [|discriminate..].
    injection Hstep as <-. eauto.
  - destruct (alloc b count) as [[p b1]| |] eqn:E; simpl in Hstep;
      [|discriminate..].
    injection Hstep as <-. eauto.
  - destruct (can_write b) eqn:Hw; [eauto|discriminate].
  - injection Hstep as <-. eauto.
  - injection Hstep as <-. eauto.
  - injection Hstep as <-. eauto.
  - injection Hstep as <-. eauto.
  - injection Hstep as <-. eauto.
Qed.

(** ** Buffers that are not open for writing *)

Lemma read_only_frame_trans b1 b2 b3 :
  read_only_frame b1 b2 → read_only_frame b2 b3 → read_only_frame b1 b3.
Proof. intros (? & ? & ?) (? & ? & ?). repeat split; congruence. Qed.

Lemma read_only_update b p :
  can_write b = false → read_only_frame b (update_current_position b p).
Proof.
  intros Hw. rewrite update_current_position_eq, Hw.
  unfold read_only_frame, can_write in *. by simpl.
Qed.

Lemma read_only_read b count advance n d b' :
  read b count advance = Done (n, d, b') → can_write b = false →
  read_only_frame b b'.
Proof.
  intros Hread Hw. apply read_inv in Hread as [->|(_ & -> & _)];
    [done|by apply read_only_update].
Qed.

Lemma read_only_write b ptr count n b' :
  write b ptr count = Done (n, b') → can_write b = false →
  read_only_frame b b'.
Proof.
  intros Hwrite Hw. apply write_inv in Hwrite as [[_ ->]|(Hw' & _)];
    [done|congruence].
Qed.

Lemma read_only_seekpos b position mode r b' :
  seekpos b position mode = Done (r, b') → can_write b = false →
  read_only_frame b b'.
Proof.
  intros Hseek Hw.
  apply seekpos_inv in Hseek as [->|[(_ & _ & _ & ->)|(_ & Hw' & _)]];
    [done|by apply read_only_update|congruence].
Qed.

(** A call on a buffer that is not open for writing leaves the committed
    size and the collection as they are, and the buffer stays closed for
    writing. *)
Lemma step_read_only op b b' :
  step op b = Done b' → can_write b = false → read_only_frame b b'.
Proof.
  intros Hstep.
  apply (step_by_primitives (λ _ _, True)
           (λ b b', can_write b = false → read_only_frame b b'))
    with (op := op); try done.
  - intros b1 b2 b3 H12 H23 Hw. specialize (H12 Hw).
    eapply read_only_frame_trans; [done|]. apply H23. by destruct H12.
  - intros. by eapply read_only_write.
  - intros. by eapply read_only_read.
  - intros. by eapply read_only_seekpos.
  - intros ???? Halloc Hw.
    apply alloc_inv in Halloc as [->|(Hw' & _)]; [done|congruence].
  - congruence.
  - intros. by apply read_only_update.
  - intros. by apply read_only_update.
Qed.

Lemma run_read_only ops b b' :
  run ops b = Done b' → can_write b = false → read_only_frame b b'.
Proof.
  revert b. induction ops as [|op ops IH]; intros b Hrun Hw; simpl in Hrun.
  - by injection Hrun as <-.
  - destruct (step op b) as [b1| |] eqn:Hstep; simpl in Hrun;
      [|discriminate..].
    pose proof (step_read_only _ _ _ Hstep Hw) as H1.
    eapply read_only_frame_trans; [exact H1|].
    apply IH; [done|]. by destruct H1.
Qed.

(** C10. On a buffer constructed in read mode from a collection, the
    committed size stays equal to the length of that collection after every
    sequence of calls (reads, peeks, releases, seeks, commits and all the
    others): the committed size is only ever raised on a buffer that is open
    for writing. *)
Theorem read_mode_committed_size_is_fixed data mode ops b0 b' :
  mode_has mode ios_base_in = true →
  container_buffer_from data mode = Done b0 →
  run ops b0 = Done b' →
  m_size b' = data_size data.
Proof.
  intros Hin Hctor Hrun.
  unfold container_buffer_from, basic_container_buffer_from, validate_mode,
    streambuf_state_manager in Hctor.
  rewrite Hin in Hctor. simpl in Hctor.
  destruct (mode_has mode ios_base_out) eqn:Hout; simpl in Hctor;
    [discriminate|].
  injection Hctor as <-.
  by apply run_read_only in Hrun as (_ & -> & _).
Qed.

(** ** The state invariant *)

Create HintDb buffer_wf discriminated.

Lemma wf_set_data b d :
  buffer_wf b → data_size d = data_size (m_data b) → buffer_wf (set_data b d).
Proof. unfold buffer_wf, buffer_invariant. simpl. intros ? ->. done. Qed.

Lemma wf_resize_for_write b newPos b1 :
  buffer_wf b → resize_for_write b newPos = Done b1 → buffer_wf b1.
Proof.
  intros [[Hcur Hsize] Hlen] Hresize.
  apply resize_for_write_inv in Hresize
    as (Hc & Hs & _ & _ & [[_ Hd]|(Hlt & Hmax & Hd)]);
    unfold buffer_wf, buffer_invariant; rewrite Hc, Hs, Hd; [done|].
  rewrite data_size_resize. lia.
Qed.

Lemma wf_update_current_position b p :
  buffer_wf b →
  p ≤ m_size b ∨ (can_write b = true ∧ p ≤ data_size (m_data b)) →
  buffer_wf (update_current_position b p).
Proof.
  intros [[Hcur Hsize] Hlen] Hp. rewrite update_current_position_eq.
  unfold buffer_wf, buffer_invariant. simpl.
  destruct Hp as [Hp|[-> Hp]]; case_cmp; rewrite ?andb_false_r; simpl; lia.
Qed.

Lemma wf_write b ptr count n b' :
  write b ptr count = Done (n, b') → buffer_wf b → buffer_wf b'.
Proof.
  intros Hwrite Hwf.
  apply write_inv in Hwrite
    as [[_ ->]|(Hw & _ & b1 & d & Hresize & Hd & Hfit & ->)]; [done|].
  pose proof (wf_resize_for_write _ _ _ Hwf Hresize) as Hwf1.
  apply resize_for_write_inv in Hresize as (Hc & Hs & Hr & Hw1 & _).
  destruct (buffer_wf_bounds b1 Hwf1) as (_ & _ & Hmod & _).
  rewrite size_t_add_small by lia.
  apply wf_update_current_position; [by apply wf_set_data|].
  right. simpl. unfold can_write in *. simpl. rewrite Hw1, Hd. split; [done|lia].
Qed.

Lemma wf_read b count advance n d b' :
  read b count advance = Done (n, d, b') → buffer_wf b → buffer_wf b'.
Proof.
  intros Hread Hwf. rewrite read_eq in Hread by done.
  destruct (buffer_wf_bounds b Hwf) as (Hcur & Hsize & Hmod & Hlen).
  destruct (N.eqb_spec (m_current_position b) (m_size b));
    [by injection Hread as <- <- <-|].
  injection Hread as <- <- <-. destruct advance; [|done].
  rewrite <- update_current_position_within by lia.
  apply wf_update_current_position; [done|]. left. lia.
Qed.

Lemma wf_seekpos b position mode r b' :
  seekpos b position mode = Done (r, b') → buffer_wf b → buffer_wf b'.
Proof.
  intros Hseek Hwf.
  destruct (buffer_wf_bounds b Hwf) as (Hcur & Hsize & Hmod & Hlen).
  size_facts.
  apply seekpos_inv in Hseek
    as [->|[(_ & _ & Hpos & ->)|(_ & Hw & b1 & Hresize & ->)]]; [done|..].
  - rewrite pos_type_of_size_t_small in Hpos by lia.
    rewrite size_t_of_pos_type_small
      by (change (2 ^ 64)%Z with 18446744073709551616%Z; lia).
    apply wf_update_current_position; [done|]. left. lia.
  - pose proof (wf_resize_for_write _ _ _ Hwf Hresize) as Hwf1.
    apply resize_for_write_inv in Hresize
      as (_ & Hs & _ & Hw1 & [[Hle _]|(_ & _ & Hd)]);
      (apply wf_update_current_position; [done|]).
    + left. by rewrite Hs.
    + right. unfold can_write in *. rewrite Hw1, Hd, data_size_resize. done.
Qed.

Lemma wf_alloc b count (p : option N) b' :
  alloc b count = Done (p, b') → buffer_wf b → buffer_wf b'.
Proof.
  intros Halloc Hwf. apply alloc_inv in Halloc as [->|[_ Hresize]]; [done|].
  by eapply wf_resize_for_write.
Qed.

Lemma wf_store_through b (p : N) d count b' :
  store_through b p d count = Done b' → buffer_wf b → buffer_wf b'.
Proof.
  unfold store_through. intros Hstore Hwf.
  destruct (std_copy_into d count (m_data b) p) as [data| |] eqn:Hcopy;
    simpl in Hstore; [|discriminate..].
  injection Hstore as <-. apply wf_set_data; [done|].
  by eapply std_copy_into_size.
Qed.

#[local] Hint Resolve wf_write wf_read wf_seekpos wf_alloc wf_store_through
  : buffer_wf.

(** Every call that does not advance the cursor unchecked keeps a
    well-formed buffer well-formed. *)
Lemma step_guarded_wf op b b' :
  advances_unchecked op = false →
  step op b = Done b' → buffer_wf b → buffer_wf b'.
Proof.
  intros Hop Hstep.
  apply (step_by_primitives (λ op _, advances_unchecked op = false)
           (λ b b', buffer_wf b → buffer_wf b'))
    with (op := op); try done; eauto with buffer_wf.
Qed.

(** X22. Every call other than [commit] and [release] keeps the state
    invariant, whatever its arguments: after any sequence of such calls that
    returns, started on a buffer with
    [cursor ≤ committed_size ≤ length ≤ max_size], the same holds again. *)
Theorem guarded_calls_keep_invariant ops : ∀ b b',
  Forall (λ op, advances_unchecked op = false) ops →
  buffer_wf b →
  run ops b = Done b' →
  m_current_position b' ≤ m_size b'
  ∧ m_size b' ≤ data_size (m_data b')
  ∧ data_size (m_data b') ≤ collection_max_size.
Proof.
  induction ops as [|op ops IH]; intros b b' Hops Hwf Hrun; simpl in Hrun.
  - injection Hrun as <-. by destruct Hwf as [[??]?].
  - apply Forall_cons_1 in Hops as [Hop Hops].
    destruct (step op b) as [b1| |] eqn:Hstep; simpl in Hrun; [|discriminate..].
    apply (IH b1); [done| |done]. by eapply step_guarded_wf.
Qed.

(** ** Calls on a buffer that is not open for writing return *)

(** On a well-formed buffer that is not open for writing every call
    returns (a caller's store apart: there is no region to store into). *)
Lemma read_byte_returns b advance :
  buffer_wf b → ∃ c b', read_byte b advance = Done (c, b') ∧ buffer_wf b'.
Proof.
  intros Hwf. unfold read_byte.
  destruct (read b 1 advance) as [[[n d] b1]| |] eqn:Hread.
  - simpl. eexists _, _. split; [done|]. by eapply wf_read.
  - rewrite read_eq in Hread by done.
    by destruct (m_current_position b =? m_size b).
  - rewrite read_eq in Hread by done.
    by destruct (m_current_position b =? m_size b).
Qed.

Lemma seekpos_returns b position mode :
  can_write b = false → ∃ r b', seekpos b position mode = Done (r, b').
Proof.
  intros Hw. unfold seekpos. rewrite Hw, !andb_false_r.
  destruct (0 <=? position)%Z; [|eauto].
  destruct (_ && _); [|eauto].
  destruct (position <=? _)%Z; eauto.
Qed.

Lemma step_returns_when_not_writable op b :
  buffer_wf b → can_write b = false → (∀ d, op ≠ op_store d) →
  ∃ b', step op b = Done b'.
Proof.
  intros Hwf Hw Hop. destruct op; simpl.
  - unfold _putn, write. rewrite Hw. simpl. eauto.
  - unfold _putc, write. rewrite Hw. simpl. eauto.
  - rewrite read_eq by done.
    destruct (m_current_position b =? m_size b); simpl; eauto.
  - destruct (read_byte_returns b advance Hwf) as (c & b' & -> & _).
    simpl. eauto.
  - unfold _nextc.
    destruct (read_byte_returns b true Hwf) as (c & b1 & -> & Hwf1). simpl.
    destruct (read_byte_returns b1 false Hwf1) as (c2 & b2 & -> & _).
    simpl. eauto.
  - unfold _ungetc, seekoff.
    destruct (seekpos_returns b
                (pos_type_of_size_t (m_current_position b) + -1)
                ios_base_in Hw) as (r & b1 & Hseek).
    rewrite Hseek. simpl.
    destruct (r =? traits_eof)%Z; simpl; [eauto|].
    unfold getc, _getc. destruct (can_read b1); simpl; [|eauto].
    apply wf_seekpos in Hseek; [|done].
    destruct (read_byte_returns b1 false Hseek) as (c2 & b2 & -> & _).
    simpl. eauto.
  - destruct (seekpos_returns b position mode Hw) as (r & b1 & ->).
    simpl. eauto.
  - unfold seekoff. destruct way.
    + destruct (seekpos_returns b (0 + offset) mode Hw) as (r & b1 & ->).
      simpl. eauto.
    + destruct (seekpos_returns b
                  (pos_type_of_size_t (m_current_position b) + offset)
                  mode Hw) as (r & b1 & ->).
      simpl. eauto.
    + destruct (seekpos_returns b
                  (pos_type_of_size_t (m_size b) + offset)
                  mode Hw) as (r & b1 & ->).
      simpl. eauto.
    + simpl. eauto.
  - unfold alloc. rewrite Hw. simpl. eauto.
  - by destruct (Hop d).
  - eauto.
  - eauto.
  - eauto.
  - eauto.
  - eauto.
Qed.

(** ** The length of the collection *)

Lemma update_current_position_data b p :
  m_data (update_current_position b p) = m_data b.
Proof. by rewrite update_current_position_eq. Qed.

Lemma update_current_position_size_le b p :
  m_size b ≤ m_size (update_current_position b p).
Proof.
  rewrite update_current_position_eq. simpl.
  destruct (can_write b); simpl; case_cmp; lia.
Qed.

Lemma read_keeps_data b count advance n d b' :
  read b count advance = Done (n, d, b') → m_data b' = m_data b.
Proof.
  intros Hread. apply read_inv in Hread as [->|(_ & -> & _)]; [done|].
  apply update_current_position_data.
Qed.

Lemma read_byte_keeps_data b advance c b' :
  read_byte b advance = Done (c, b') → m_data b' = m_data b.
Proof.
  intros Hread. apply read_byte_inv in Hread as [->|(_ & -> & _)]; [done|].
  apply update_current_position_data.
Qed.

Lemma seekoff_read_head_keeps_data b offset way r b' :
  seekoff b offset way ios_base_in = Done (r, b') → m_data b' = m_data b.
Proof.
  intros Hseek. apply seekoff_inv in Hseek as [->|[position Hseek]]; [done|].
  apply seekpos_inv in Hseek as [->|[(_ & _ & _ & ->)|(Hout & _)]]; [done|..].
  - apply update_current_position_data.
  - by rewrite mode_in_is_not_out in Hout.
Qed.

(** No call lowers the committed size, and a call either keeps the length of
    the collection or leaves it longer than the committed size was. *)
Lemma step_storage op b b' :
  step op b = Done b' →
  m_size b ≤ m_size b'
  ∧ (data_size (m_data b') = data_size (m_data b)
     ∨ m_size b < data_size (m_data b')).
Proof.
  apply (step_by_primitives (λ _ _, True)
           (λ b b', m_size b ≤ m_size b'
                    ∧ (data_size (m_data b') = data_size (m_data b)
                       ∨ m_size b < data_size (m_data b'))));
    clear op b b'; try done.
  - intros b. split; [lia|by left].
  - intros b1 b2 b3 [H12 H12'] [H23 H23']. split; [lia|].
    destruct H12', H23'; [left; congruence|right; lia..].
  - intros b ptr count n b' Hwrite.
    apply write_inv in Hwrite
      as [[_ ->]|(_ & _ & b1 & d & Hresize & Hd & _ & ->)];
      [split; [lia|by left]|].
    apply resize_for_write_inv in Hresize
      as (_ & Hs & _ & _ & [[_ Hdata]|(Hlt & _ & Hdata)]);
      (split;
       [rewrite <- Hs; apply (update_current_position_size_le (set_data b1 d))|]);
      rewrite update_current_position_data; simpl; rewrite Hd, Hdata.
    + by left.
    + right. by rewrite data_size_resize.
  - intros b count advance n d b' Hread.
    apply read_inv in Hread as [->|(_ & -> & _)]; [split; [lia|by left]|].
    split; [apply update_current_position_size_le|].
    left. by rewrite update_current_position_data.
  - intros b position mode r b' Hseek.
    apply seekpos_inv in Hseek
      as [->|[(_ & _ & _ & ->)|(_ & _ & b1 & Hresize & ->)]];
      [split; [lia|by left]|..].
    + split; [apply update_current_position_size_le|].
      left. by rewrite update_current_position_data.
    + apply resize_for_write_inv in Hresize
        as (_ & Hs & _ & _ & [[_ Hdata]|(Hlt & _ & Hdata)]);
        (split; [rewrite <- Hs; apply update_current_position_size_le|]);
        rewrite update_current_position_data, Hdata.
      * by left.
      * right. by rewrite data_size_resize.
  - intros b count p b' Halloc.
    apply alloc_inv in Halloc as [->|[_ Hresize]]; [split; [lia|by left]|].
    apply resize_for_write_inv in Hresize
      as (_ & Hs & _ & _ & [[_ Hdata]|(Hlt & _ & Hdata)]);
      rewrite Hs, Hdata; (split; [lia|]).
    + by left.
    + right. by rewrite data_size_resize.
  - intros b p d count b' _ Hstore. unfold store_through in Hstore.
    destruct (std_copy_into d count (m_data b) p) as [data| |] eqn:Hcopy;
      simpl in Hstore; [|discriminate..].
    injection Hstore as <-. simpl. split; [lia|].
    left. by eapply std_copy_into_size.
  - intros b actual _. split; [apply update_current_position_size_le|].
    left. unfold commit. by rewrite update_current_position_data.
  - intros b count _. split; [apply update_current_position_size_le|].
    left. unfold release. by rewrite update_current_position_data.
  - intros b. simpl. split; [lia|by left].
  - intros b. simpl. split; [lia|by left].
Qed.

(** The calls that cannot reach [resize_for_write] keep the length of the
    collection. *)
Lemma step_without_resize op b b' :
  may_resize op = false → step op b = Done b' →
  data_size (m_data b') = data_size (m_data b).
Proof.
  intros Hop Hstep. destruct op; try discriminate Hop; simpl in Hstep.
  - destruct (read b count advance) as [[[n d] b1]| |] eqn:E; simpl in Hstep;
      [|discriminate..].
    injection Hstep as <-. f_equal. by eapply read_keeps_data.
  - destruct (read_byte b advance) as [[c b1]| |] eqn:E; simpl in Hstep;
      [|discriminate..].
    injection Hstep as <-. f_equal. by eapply read_byte_keeps_data.
  - unfold _nextc in Hstep.
    destruct (read_byte b true) as [[c b1]| |] eqn:E1; simpl in Hstep;
      [|discriminate..].
    destruct (read_byte b1 false) as [[c2 b2]| |] eqn:E2; simpl in Hstep;
      [|discriminate..].
    injection Hstep as <-. f_equal.
    apply read_byte_keeps_data in E1, E2. congruence.
  - unfold _ungetc in Hstep.
    destruct (seekoff b (-1) ios_base_cur ios_base_in) as [[pos b1]| |] eqn:E1;
      simpl in Hstep; [|discriminate..].
    apply seekoff_read_head_keeps_data in E1.
    destruct (pos =? traits_eof)%Z; simpl in Hstep;
      [injection Hstep as <-; by f_equal|].
    unfold getc, _getc in Hstep.
    destruct (can_read b1); simpl in Hstep;
      [|injection Hstep as <-; by f_equal].
    destruct (read_byte b1 false) as [[c2 b2]| |] eqn:E2; simpl in Hstep;
      [|discriminate..].
    injection Hstep as <-. f_equal.
    apply read_byte_keeps_data in E2. congruence.
  - destruct (can_write b); [|discriminate]. unfold store_through in Hstep.
    destruct (std_copy_into _ _ _ _) as [data| |] eqn:Hcopy;
      simpl in Hstep; [|discriminate..].
    injection Hstep as <-. by eapply std_copy_into_size.
  - injection Hstep as <-. unfold commit.
    by rewrite update_current_position_data.
  - by injection Hstep as <-.
  - injection Hstep as <-. unfold release.
    by rewrite update_current_position_data.
  - by injection Hstep as <-.
  - by injection Hstep as <-.
Qed.

(** C7 (amended). For every operation and every starting state whose
    committed size lies within the collection: the collection is never cut
    below the committed size; it does not get shorter when it held no
    uncommitted tail (committed size = length) before the call; and the
    calls that cannot resize (read, peek, unget, commit, acquire, release,
    close, and the caller's stores) keep its length. *)
Theorem storage_never_cut_below_committed_size op b b' :
  step op b = Done b' →
  m_size b ≤ data_size (m_data b) →
  m_size b ≤ data_size (m_data b')
  ∧ (m_size b = data_size (m_data b) →
     data_size (m_data b) ≤ data_size (m_data b'))
  ∧ (may_resize op = false →
     data_size (m_data b') = data_size (m_data b)).
Proof.
  intros Hstep Hsize.
  pose proof (step_storage _ _ _ Hstep) as [_ Hlen].
  repeat split.
  - destruct Hlen; lia.
  - destruct Hlen; lia.
  - intros Hop. by eapply step_without_resize.
Qed.

(** ** Writing a stream and reading it back *)

Lemma total_count_cons (w : list CharType * N) ws :
  total_count (w :: ws) = w.2 + total_count ws.
Proof. done. Qed.

Lemma written_cons (w : list CharType * N) ws :
  written (w :: ws) = take (N.to_nat w.2) w.1 ++ written ws.
Proof. done. Qed.

Lemma data_size_written ws :
  Forall (λ w : list CharType * N, w.2 ≤ data_size w.1) ws →
  data_size (written ws) = total_count ws.
Proof.
  induction 1 as [|w ws Hw _ IH]; [done|].
  rewrite written_cons, total_count_cons, data_size_app, IH.
  by rewrite data_size_take.
Qed.

(** Writes at the end of a collection without uncommitted tail append. *)
Lemma write_all_appends ws : ∀ b,
  can_write b = true →
  m_current_position b = data_size (m_data b) →
  m_size b = data_size (m_data b) →
  Forall (λ w : list CharType * N, w.2 ≤ data_size w.1) ws →
  data_size (m_data b) + total_count ws ≤ collection_max_size →
  write_all b ws =
  Done (mk_buffer (m_data b ++ written ws)
          (data_size (m_data b) + total_count ws)
          (data_size (m_data b) + total_count ws)
          (m_stream_can_read b) true).
Proof.
  induction ws as [|[ptr count] ws IH]; intros b Hw Hcur Hsize Hvalid Hmax.
  - simpl. unfold written, total_count. simpl.
    rewrite app_nil_r, N.add_0_r. destruct b. unfold can_write in Hw.
    simpl in *. by subst.
  - apply Forall_cons_1 in Hvalid as [Hptr Hvalid]. simpl in Hptr.
    rewrite total_count_cons in Hmax. simpl in Hmax.
    rewrite written_cons, total_count_cons. simpl.
    destruct (N.eq_dec count 0) as [->|Hcount].
    + unfold write. rewrite orb_true_r. simpl. rewrite IH by done.
      by rewrite N.add_0_l.
    + assert (Hwf : buffer_wf b).
      { unfold buffer_wf, buffer_invariant. lia. }
      rewrite write_done by (done || lia). simpl.
      rewrite Hcur, Hsize.
      destruct (N.ltb_spec (data_size (m_data b)) (data_size (m_data b) + count));
        [|lia].
      assert (Htake : take (N.to_nat (data_size (m_data b))) (m_data b) = m_data b).
      { apply take_ge. unfold data_size. lia. }
      rewrite Htake, app_nil_r.
      assert (Hsz : data_size (m_data b ++ take (N.to_nat count) ptr)
                    = data_size (m_data b) + count).
      { by rewrite data_size_app, data_size_take. }
      rewrite IH; simpl; rewrite ?Hsz; try done.
      * by rewrite <- app_assoc, N.add_assoc.
      * lia.
      * lia.
Qed.

(** A traversal of a well-formed buffer returns what lies between the cursor
    and the committed size, as far as the counts reach. *)
Lemma read_chunks_eq counts : ∀ b,
  buffer_wf b →
  let n := N.min (foldr N.add 0 counts) (m_size b - m_current_position b) in
  read_chunks b counts =
  Done (take (N.to_nat n) (drop (N.to_nat (m_current_position b)) (m_data b)),
        set_current_position b (m_current_position b + n)).
Proof.
  induction counts as [|count counts IH]; intros b Hwf; cbv zeta in *.
  - simpl. rewrite N.min_0_l, N.add_0_r. by destruct b.
  - simpl.
    destruct (buffer_wf_bounds b Hwf) as (Hcur & Hsize & Hmod & Hlen).
    rewrite read_eq by done.
    destruct (N.eqb_spec (m_current_position b) (m_size b)) as [Heq|Hne].
    + simpl. rewrite IH by done. simpl. rewrite Heq, N.sub_diag, !N.min_0_r.
      done.
    + simpl.
      set (n1 := N.min count (m_size b - m_current_position b)).
      assert (Hn1 : n1 ≤ m_size b - m_current_position b) by (unfold n1; lia).
      assert (Hwf1 : buffer_wf (set_current_position b (m_current_position b + n1))).
      { unfold buffer_wf, buffer_invariant in *. simpl. lia. }
      rewrite IH by done. simpl.
      set (total := foldr N.add 0 counts).
      set (n2 := N.min total (m_size b - (m_current_position b + n1))).
      replace (N.min (count + total) (m_size b - m_current_position b))
        with (n1 + n2) by (unfold n1, n2; lia).
      f_equal. f_equal; [|by rewrite N.add_assoc].
      rewrite (N2Nat.inj_add n1 n2), <- take_take_drop, drop_drop.
      by rewrite <- N2Nat.inj_add.
Qed.

(** C1. Every sequence of writes of total count L into a buffer constructed
    empty in write mode leaves [committed_size = L], and a read-mode buffer
    constructed from the resulting collection, read from offset 0, yields
    exactly the L written characters in order: by one [read] of at least L
    characters, and by any traversal whose counts add up to at least L. *)
Theorem writes_then_full_read mode ws :
  mode_has mode ios_base_out = true →
  Forall (λ w : list CharType * N, w.2 ≤ data_size w.1) ws →
  total_count ws ≤ collection_max_size →
  ∃ b0 b rb,
    container_buffer_empty mode = Done b0
    ∧ write_all b0 ws = Done b
    ∧ m_size b = total_count ws
    ∧ collection b = written ws
    ∧ container_buffer_from (collection b) ios_base_in = Done rb
    ∧ m_current_position rb = 0
    ∧ (∀ count, total_count ws ≤ count →
       ∃ rb', read rb count true = Done (total_count ws, written ws, rb'))
    ∧ (∀ counts, total_count ws ≤ foldr N.add 0 counts →
       ∃ rb', read_chunks rb counts = Done (written ws, rb')).
Proof.
  intros Hout Hvalid Hmax.
  pose proof (data_size_written ws Hvalid) as Hlen.
  set (rb := mk_buffer (written ws) 0 (data_size (written ws)) true false).
  exists (mk_buffer [] 0 0 (mode_has mode ios_base_in) (mode_has mode ios_base_out)),
    (mk_buffer (written ws) (total_count ws) (total_count ws)
       (mode_has mode ios_base_in) true), rb.
  split; [reflexivity|]. split.
  { rewrite write_all_appends; simpl; rewrite ?N.add_0_l; done. }
  do 4 (split; [done|]).
  assert (Hwf : buffer_wf rb).
  { unfold buffer_wf, buffer_invariant, rb. simpl. lia. }
  assert (Hall : take (N.to_nat (total_count ws)) (written ws) = written ws).
  { apply take_ge. unfold data_size in Hlen. lia. }
  split.
  - intros count Hcount. rewrite read_eq by done.
    cbn [rb m_current_position m_size m_data]. rewrite Hlen, N.sub_0_r.
    destruct (N.eqb_spec 0 (total_count ws)) as [Hempty|Hne].
    + exists rb. rewrite <- Hempty. do 3 f_equal.
      symmetry. apply nil_length_inv. unfold data_size in Hlen. lia.
    + eexists. cbv zeta. rewrite N.min_r by lia.
      change (drop (N.to_nat 0) (written ws)) with (written ws).
      by rewrite Hall.
  - intros counts Hcounts. rewrite read_chunks_eq by done.
    cbn [rb m_current_position m_size m_data]. rewrite Hlen, N.sub_0_r.
    eexists. rewrite N.min_r by lia.
    change (drop (N.to_nat 0) (written ws)) with (written ws).
    by rewrite Hall.
Qed.

(** ** alloc / commit *)

(** C9. On every writable buffer, [alloc(n)] followed by filling the returned
    region with [d] and [commit(n)] leaves the buffer in the same state (same
    collection, cursor and committed size) as [write(d, n)] does, and fails
    where [write] fails. *)
Theorem alloc_fill_commit_is_write b d n :
  buffer_wf b → can_write b = true →
  alloc_fill_commit b d n = ('(_, b') ← write b d n; Done b').
Proof.
  intros Hwf Hw.
  destruct (buffer_wf_bounds b Hwf) as (Hcur & Hsize & Hmod & Hlen).
  unfold alloc_fill_commit, alloc, write, store_through, commit.
  rewrite Hw. simpl.
  destruct (N.eqb_spec n 0) as [->|Hn]; simpl.
  - rewrite size_t_add_small by lia. rewrite N.add_0_r.
    rewrite resize_for_write_eq by lia.
    destruct (N.ltb_spec (m_size b) (m_current_position b)); [lia|]. simpl.
    unfold std_copy_into. rewrite N.add_0_r.
    destruct (N.leb_spec 0 (data_size d)); [|lia].
    destruct (N.leb_spec (m_current_position b) (data_size (m_data b))); [|lia].
    simpl. rewrite take_drop. simpl.
    rewrite size_t_add_small by (simpl; lia). simpl. rewrite N.add_0_r.
    rewrite update_current_position_within by (simpl; lia).
    by destruct b.
  - destruct (resize_for_write b (size_t_add (m_current_position b) n))
      as [b1| |] eqn:Hresize; simpl; [|done..].
    apply resize_for_write_inv in Hresize as (Hc & _).
    destruct (std_copy_into d n (m_data b1) (m_current_position b1))
      as [data| |]; simpl; [|done..].
    by rewrite Hc.
Qed.

(** ** acquire *)

Lemma acquire_with_data b (ptr : option N) count :
  can_read b = true → 0 < in_avail b →
  acquire b ptr count = (true, Some (m_current_position b), in_avail b).
Proof.
  intros Hr Havail. unfold acquire. rewrite Hr. simpl.
  by destruct (N.ltb_spec 0 (in_avail b)); [|lia].
Qed.

(** The last branch of [acquire] is only reached on a buffer that is open for
    reading, where [is_open] holds: without data, [acquire] returns false. *)
Lemma acquire_without_data b (ptr : option N) count :
  in_avail b = 0 → (acquire b ptr count).1.1 = false.
Proof.
  intros Havail. unfold acquire, is_open.
  destruct (can_read b); simpl; [|done].
  by rewrite Havail.
Qed.

Lemma acquire_closed b (ptr : option N) count :
  is_open b = false → acquire b ptr count = (false, ptr, count).
Proof.
  unfold acquire, is_open. by destruct (can_read b).
Qed.

(** ** Construction *)

Lemma container_buffer_from_rejects_both (data : list CharType) mode :
  mode_has mode ios_base_in = true → mode_has mode ios_base_out = true →
  container_buffer_from data mode = Throws invalid_argument.
Proof.
  intros Hin Hout.
  unfold container_buffer_from, basic_container_buffer_from, validate_mode.
  by rewrite Hin, Hout.
Qed.

Lemma container_buffer_empty_never_throws mode :
  container_buffer_empty (CharType := CharType) mode =
  Done (mk_buffer [] 0 0 (mode_has mode ios_base_in) (mode_has mode ios_base_out)).
Proof. done. Qed.

(** * Further properties of the buffer *)

(** ** Single characters: peek, bump, next, unget *)

Lemma lookup_in_collection b i :
  i < data_size (m_data b) → ∃ c, m_data b !! N.to_nat i = Some c.
Proof.
  intros Hi. apply lookup_lt_is_Some. unfold data_size in Hi. lia.
Qed.

Lemma read_byte_at_end b advance :
  buffer_wf b → m_current_position b = m_size b →
  read_byte b advance = Done (traits_eof, b).
Proof.
  intros Hwf Hend. unfold read_byte. rewrite read_eq by done.
  by rewrite Hend, N.eqb_refl.
Qed.

Lemma read_byte_at b advance c :
  buffer_wf b → m_current_position b < m_size b →
  m_data b !! N.to_nat (m_current_position b) = Some c →
  read_byte b advance =
  Done (to_int_type c,
        if advance then set_current_position b (m_current_position b + 1)
        else b).
Proof.
  intros Hwf Hlt Hc. unfold read_byte. rewrite read_eq by done.
  destruct (N.eqb_spec (m_current_position b) (m_size b)); [lia|].
  cbv zeta. rewrite N.min_l by lia.
  rewrite (drop_S _ c) by done.
  change (N.to_nat 1) with 1%nat. by rewrite firstn_cons, take_0.
Qed.

(** X1. [read_byte] (and with it [_getc], [_sgetc], [_bumpc], [_sbumpc]):
    at the end of the committed data it returns the end-of-stream sentinel
    and leaves the buffer alone; before the end it returns the character
    under the cursor, moving the cursor forward by one exactly when it is
    asked to advance. *)
Theorem read_byte_returns_character_under_cursor b advance :
  buffer_wf b →
  (m_current_position b = m_size b →
   read_byte b advance = Done (traits_eof, b))
  ∧ (m_current_position b < m_size b →
     ∃ c, m_data b !! N.to_nat (m_current_position b) = Some c
          ∧ _sgetc b = Done (to_int_type c, b)
          ∧ _sbumpc b
            = Done (to_int_type c,
                    set_current_position b (m_current_position b + 1))).
Proof.
  intros Hwf. split; [by apply read_byte_at_end|].
  intros Hlt. destruct (buffer_wf_bounds b Hwf) as (_ & Hsize & _).
  destruct (lookup_in_collection b (m_current_position b)) as [c Hc]; [lia|].
  exists c. split; [done|]. unfold _sgetc, _sbumpc.
  by rewrite !(read_byte_at _ _ c).
Qed.

Lemma wf_set_current_position b p :
  buffer_wf b → p ≤ m_size b → buffer_wf (set_current_position b p).
Proof. intros [[??]?] ?. by repeat split. Qed.

(** X2. [_nextc] consumes the character under the cursor and peeks at the
    following one: with no data it returns the sentinel and moves nothing;
    with one character left it consumes it and returns the sentinel;
    otherwise it moves the cursor forward by one and returns the character
    now under it. *)
Theorem nextc_consumes_one_and_peeks b :
  buffer_wf b →
  (m_current_position b = m_size b → _nextc b = Done (traits_eof, b))
  ∧ (m_current_position b + 1 = m_size b →
     _nextc b
     = Done (traits_eof, set_current_position b (m_current_position b + 1)))
  ∧ (m_current_position b + 1 < m_size b →
     ∃ c, m_data b !! N.to_nat (m_current_position b + 1) = Some c
          ∧ _nextc b
            = Done (to_int_type c,
                    set_current_position b (m_current_position b + 1))).
Proof.
  intros Hwf. destruct (buffer_wf_bounds b Hwf) as (_ & Hsize & _).
  unfold _nextc. split; [|split].
  - intros Hend. rewrite read_byte_at_end by done. simpl.
    by rewrite read_byte_at_end.
  - intros Hlast.
    destruct (lookup_in_collection b (m_current_position b)) as [c Hc]; [lia|].
    rewrite (read_byte_at _ _ c) by (done || lia). simpl.
    rewrite read_byte_at_end; [done| |done].
    apply wf_set_current_position; [done|lia].
  - intros Hmore.
    destruct (lookup_in_collection b (m_current_position b)) as [c Hc]; [lia|].
    destruct (lookup_in_collection b (m_current_position b + 1)) as [c' Hc'];
      [lia|].
    exists c'. split; [done|].
    rewrite (read_byte_at _ _ c) by (done || lia). simpl.
    rewrite (read_byte_at _ _ c'); [done| |simpl; lia|done].
    apply wf_set_current_position; [done|lia].
Qed.

Lemma ungetc_fails b :
  can_read b = false ∨ m_current_position b = 0 →
  buffer_wf b → _ungetc b = Done (traits_eof, b).
Proof.
  intros Hcase Hwf. destruct (buffer_wf_bounds b Hwf) as (Hcur & Hsize & Hmod & Hlen).
  unfold _ungetc, seekoff. rewrite pos_type_of_size_t_small by lia.
  destruct Hcase as [Hr|Hzero].
  - unfold seekpos. rewrite Hr, mode_in_is_not_out, !andb_false_r. simpl.
    destruct (0 <=? _)%Z; simpl; by rewrite Z.eqb_refl.
  - rewrite seekpos_before_begin by lia. simpl. by rewrite Z.eqb_refl.
Qed.

Lemma ungetc_back b c :
  buffer_wf b → can_read b = true → 0 < m_current_position b →
  (Z.of_N (m_current_position b) - 1 ≠ traits_eof)%Z →
  m_data b !! N.to_nat (m_current_position b - 1) = Some c →
  _ungetc b
  = Done (to_int_type c, set_current_position b (m_current_position b - 1)).
Proof.
  intros Hwf Hr Hpos Heof Hc.
  destruct (buffer_wf_bounds b Hwf) as (Hcur & Hsize & Hmod & Hlen).
  unfold _ungetc, seekoff. rewrite pos_type_of_size_t_small by lia.
  rewrite seekpos_read_head by (done || lia). simpl.
  replace (Z.to_N (Z.of_N (m_current_position b) + -1))
    with (m_current_position b - 1) by lia.
  destruct (Z.eqb_spec (Z.of_N (m_current_position b) + -1) traits_eof); [lia|].
  unfold getc, _getc, can_read. simpl. unfold can_read in Hr. rewrite Hr.
  rewrite (read_byte_at _ _ c); [done| |simpl; lia|done].
  apply wf_set_current_position; [done|lia].
Qed.

(** X3. [_ungetc] fails with the sentinel, moving nothing, on a buffer that
    is not open for reading and at position 0. Otherwise it moves the cursor
    back by one and returns the character now under it, provided the
    position it seeks to is not the number that [traits::eof()] converts to
    (the result of the seek is compared with that number to detect a failed
    seek). *)
Theorem ungetc_moves_back_by_one b :
  buffer_wf b →
  (can_read b = false ∨ m_current_position b = 0 →
   _ungetc b = Done (traits_eof, b))
  ∧ (can_read b = true → 0 < m_current_position b →
     (Z.of_N (m_current_position b) - 1 ≠ traits_eof)%Z →
     ∃ c, m_data b !! N.to_nat (m_current_position b - 1) = Some c
          ∧ _ungetc b
            = Done (to_int_type c,
                    set_current_position b (m_current_position b - 1))).
Proof.
  intros Hwf. split; [intros; by apply ungetc_fails|].
  intros Hr Hpos Heof. destruct (buffer_wf_bounds b Hwf) as (Hcur & Hsize & _).
  destruct (lookup_in_collection b (m_current_position b - 1)) as [c Hc]; [lia|].
  exists c. split; [done|]. by apply ungetc_back.
Qed.

(** X4. Consuming a character and ungetting it is a round trip: on a buffer
    open for reading with data under the cursor, [_sbumpc] followed by
    [_ungetc] returns the same character twice and restores the buffer
    (provided the cursor position is not the number [traits::eof()] converts
    to). *)
Theorem bumpc_then_ungetc_restores b :
  buffer_wf b → can_read b = true →
  m_current_position b < m_size b →
  (Z.of_N (m_current_position b) ≠ traits_eof)%Z →
  ∃ c b1,
    _sbumpc b = Done (to_int_type c, b1)
    ∧ _ungetc b1 = Done (to_int_type c, b).
Proof.
  intros Hwf Hr Hlt Heof.
  destruct (buffer_wf_bounds b Hwf) as (Hcur & Hsize & _).
  destruct (lookup_in_collection b (m_current_position b)) as [c Hc]; [lia|].
  exists c, (set_current_position b (m_current_position b + 1)).
  unfold _sbumpc. rewrite (read_byte_at _ _ c) by done. split; [done|].
  rewrite (ungetc_back _ c); simpl.
  - replace (m_current_position b + 1 - 1) with (m_current_position b) by lia.
    by destruct b.
  - apply wf_set_current_position; [done|lia].
  - done.
  - lia.
  - lia.
  - by replace (m_current_position b + 1 - 1) with (m_current_position b) by lia.
Qed.

(** ** Blocks: copy without consuming, seek and read *)

(** X5. [_scopy] is a preview of [_sgetn]: it returns the same count and the
    same characters and leaves the buffer as it is, while [_sgetn] moves the
    cursor forward by the count returned, which is
    [min(count, in_avail())], and lowers [in_avail()] by it. *)
Theorem scopy_previews_sgetn b count :
  buffer_wf b →
  ∃ d b',
    let n := N.min count (in_avail b) in
    _scopy b count = Done (n, d, b)
    ∧ _sgetn b count = Done (n, d, b')
    ∧ data_size d = n
    ∧ m_current_position b' = m_current_position b + n
    ∧ in_avail b' = in_avail b - n
    ∧ m_data b' = m_data b ∧ m_size b' = m_size b.
Proof.
  intros Hwf. destruct (buffer_wf_bounds b Hwf) as (Hcur & Hsize & Hmod & Hlen).
  unfold _scopy, _sgetn. rewrite !read_eq by done.
  rewrite (in_avail_eq b) by lia.
  destruct (N.eqb_spec (m_current_position b) (m_size b)) as [Heq|Hne].
  - exists [], b. cbv zeta. rewrite Heq, N.sub_diag, N.min_0_r.
    rewrite in_avail_eq by lia. rewrite Heq, N.sub_diag. by rewrite N.add_0_r.
  - eexists _, _. cbv zeta. split; [done|]. split; [done|].
    set (n := N.min count (m_size b - m_current_position b)).
    assert (n ≤ m_size b - m_current_position b) by (unfold n; lia).
    split; [|split; [done|split; [|done]]].
    + rewrite data_size_take; [done|]. rewrite data_size_drop. lia.
    + rewrite in_avail_eq by (simpl; lia). simpl. lia.
Qed.

(** X6. On a buffer open for reading, seeking the read head to a position
    [p] within the committed data and then reading [committed_size - p]
    characters returns exactly the committed data from [p] on and leaves
    nothing available. *)
Theorem seek_then_read_returns_tail b p mode :
  buffer_wf b → can_read b = true → mode_has mode ios_base_in = true →
  p ≤ m_size b →
  ∃ b1 b2,
    seekpos b (Z.of_N p) mode = Done (Z.of_N p, b1)
    ∧ read b1 (m_size b - p) true
      = Done (m_size b - p,
              take (N.to_nat (m_size b - p)) (drop (N.to_nat p) (m_data b)),
              b2)
    ∧ in_avail b2 = 0.
Proof.
  intros Hwf Hr Hm Hp.
  destruct (buffer_wf_bounds b Hwf) as (Hcur & Hsize & Hmod & Hlen).
  rewrite seekpos_read_head by (done || lia). rewrite N2Z.id.
  assert (Hwf1 : buffer_wf (set_current_position b p))
    by (by apply wf_set_current_position).
  exists (set_current_position b p). rewrite read_eq by done.
  cbn [set_current_position m_current_position m_size m_data].
  destruct (N.eqb_spec p (m_size b)) as [->|Hne].
  - exists (set_current_position b (m_size b)). split; [done|].
    rewrite N.sub_diag. split; [done|].
    rewrite in_avail_eq by (simpl; lia). simpl. lia.
  - eexists. split; [done|]. cbv zeta. rewrite N.min_id. split; [done|].
    rewrite in_avail_eq by (simpl; lia). simpl. lia.
Qed.

(** X7. A seek by 0 relative to the cursor is a pure query: when the mode
    names a direction the buffer is open in, it returns the cursor position
    and leaves the buffer unchanged; otherwise it returns the sentinel and
    leaves the buffer unchanged. *)
Theorem seekoff_zero_from_cursor_reports_position b mode :
  buffer_wf b →
  seekoff b 0 ios_base_cur mode =
  Done (if (mode_has mode ios_base_in && can_read b)
           || (mode_has mode ios_base_out && can_write b)
        then Z.of_N (m_current_position b) else traits_eof,
        b).
Proof.
  intros Hwf. destruct (buffer_wf_bounds b Hwf) as (Hcur & Hsize & Hmod & Hlen).
  size_facts. unfold seekoff, seekpos.
  rewrite !pos_type_of_size_t_small by lia. rewrite Z.add_0_r.
  rewrite size_t_of_pos_type_small
    by (change (2 ^ 64)%Z with 18446744073709551616%Z; lia).
  rewrite N2Z.id.
  destruct (Z.leb_spec 0 (Z.of_N (m_current_position b))); [|lia].
  destruct (Z.leb_spec (Z.of_N (m_current_position b)) (Z.of_N (m_size b)));
    [|lia].
  rewrite update_current_position_within by lia.
  assert (Hsame : set_current_position b (m_current_position b) = b)
    by (by destruct b).
  rewrite Hsame.
  destruct (mode_has mode ios_base_in && can_read b); simpl;
    [by rewrite pos_type_of_size_t_small by lia|].
  destruct (mode_has mode ios_base_out && can_write b); simpl; [|done].
  rewrite resize_for_write_eq by lia.
  destruct (N.ltb_spec (m_size b) (m_current_position b)); [lia|]. simpl.
  rewrite update_current_position_within, Hsame by lia.
  by rewrite pos_type_of_size_t_small by lia.
Qed.

(** X8. Seeking before the beginning fails whatever the direction, the mode
    and the state of the buffer: when the resolved target is negative,
    [seekoff] returns the sentinel and leaves the buffer unchanged. *)
Theorem seek_before_begin_fails b offset mode :
  buffer_wf b →
  ((offset < 0)%Z →
   seekoff b offset ios_base_beg mode = Done (traits_eof, b))
  ∧ ((Z.of_N (m_current_position b) + offset < 0)%Z →
     seekoff b offset ios_base_cur mode = Done (traits_eof, b))
  ∧ ((Z.of_N (m_size b) + offset < 0)%Z →
     seekoff b offset ios_base_end mode = Done (traits_eof, b)).
Proof.
  intros Hwf. destruct (seekoff_resolves b offset mode Hwf) as (-> & -> & ->).
  repeat split; intros; by apply seekpos_before_begin.
Qed.

(** ** The zero-copy read path *)

(** X9. On a buffer open for reading, [acquire], consuming the first [k]
    characters of the view and [release(k)] hands the caller the characters
    and leaves the buffer in the state that [read] of [k] characters does,
    for every [k] within what is available. *)
Theorem acquire_consume_release_is_read b k :
  buffer_wf b → can_read b = true → k ≤ in_avail b →
  acquire_consume_release b k = ('(_, d, b') ← read b k true; Done (d, b')).
Proof.
  intros Hwf Hr Hk.
  destruct (buffer_wf_bounds b Hwf) as (Hcur & Hsize & Hmod & Hlen).
  rewrite in_avail_eq in Hk by lia.
  unfold acquire_consume_release, acquire. rewrite Hr. simpl.
  rewrite read_eq by done. rewrite in_avail_eq by lia.
  destruct (N.eqb_spec (m_current_position b) (m_size b)) as [Heq|Hne].
  - rewrite Heq, N.sub_diag, N.ltb_irrefl. unfold is_open. by rewrite Hr.
  - destruct (N.ltb_spec 0 (m_size b - m_current_position b)); [|lia].
    unfold load_through, release. cbv zeta. simpl.
    rewrite std_copy_from_eq by lia. simpl.
    rewrite size_t_add_small by lia.
    rewrite update_current_position_within by lia.
    rewrite N.min_l by lia.
    by replace (m_current_position b + k - m_current_position b) with k by lia.
Qed.

(** ** Closed directions *)

(** X10. On a fully closed buffer every call of the write side, every seek
    and [acquire] report failure and leave the buffer unchanged: [write]
    returns 0, [_putc] and [_ungetc] the sentinel, [alloc] the null pointer,
    [seekpos] and [seekoff] the sentinel, [acquire] false, and [can_seek] is
    false. *)
Theorem closed_buffer_rejects_calls b ptr count ch position offset way mode
    (p : option N) :
  is_open b = false →
  write b ptr count = Done (0, b)
  ∧ _putc b ch = Done (traits_eof, b)
  ∧ alloc b count = Done (None, b)
  ∧ seekpos b position mode = Done (traits_eof, b)
  ∧ seekoff b offset way mode = Done (traits_eof, b)
  ∧ _ungetc b = Done (traits_eof, b)
  ∧ acquire b p count = (false, p, count)
  ∧ can_seek b = false.
Proof.
  unfold is_open. intros Hclosed.
  apply orb_false_elim in Hclosed as [Hr Hw].
  assert (Hseek : ∀ position mode, seekpos b position mode = Done (traits_eof, b)).
  { intros position' mode'. unfold seekpos. rewrite Hr, Hw, !andb_false_r.
    by destruct (0 <=? position')%Z. }
  assert (Hseekoff : ∀ offset way mode,
            seekoff b offset way mode = Done (traits_eof, b)).
  { intros offset' way' mode'. unfold seekoff. by destruct way'. }
  repeat split.
  - unfold write. by rewrite Hw.
  - unfold _putc, write. by rewrite Hw.
  - unfold alloc. by rewrite Hw.
  - done.
  - done.
  - unfold _ungetc. rewrite Hseekoff. simpl. by rewrite Z.eqb_refl.
  - unfold acquire. by rewrite Hr.
  - unfold can_seek, is_open. by rewrite Hr, Hw.
Qed.

Lemma step_flags op b b' :
  step op b = Done b' →
  (can_read b' = true → can_read b = true)
  ∧ (can_write b' = true → can_write b = true).
Proof.
  apply (step_by_primitives (λ _ _, True)
           (λ b b', (can_read b' = true → can_read b = true)
                    ∧ (can_write b' = true → can_write b = true)));
    clear op b b'; try done.
  - intros b1 b2 b3 [??] [??]. split; auto.
  - intros b ptr count n b' Hwrite.
    apply write_inv in Hwrite
      as [[_ ->]|(_ & _ & b1 & d & Hresize & _ & _ & ->)]; [done|].
    apply resize_for_write_inv in Hresize as (_ & _ & Hr & Hw & _).
    rewrite update_current_position_eq. unfold can_read, can_write. simpl.
    by rewrite Hr, Hw.
  - intros b count advance n d b' Hread.
    apply read_inv in Hread as [->|(_ & -> & _)]; [done|].
    by rewrite update_current_position_eq.
  - intros b position mode r b' Hseek.
    apply seekpos_inv in Hseek
      as [->|[(_ & _ & _ & ->)|(_ & _ & b1 & Hresize & ->)]]; [done|..].
    + by rewrite update_current_position_eq.
    + apply resize_for_write_inv in Hresize as (_ & _ & Hr & Hw & _).
      rewrite update_current_position_eq. unfold can_read, can_write. simpl.
      by rewrite Hr, Hw.
  - intros b count p b' Halloc.
    apply alloc_inv in Halloc as [->|[_ Hresize]]; [done|].
    apply resize_for_write_inv in Hresize as (_ & _ & Hr & Hw & _).
    unfold can_read, can_write. by rewrite Hr, Hw.
  - intros b p d count b' _ Hstore. unfold store_through in Hstore.
    destruct (std_copy_into d count (m_data b) p); simpl in Hstore;
      [|discriminate..].
    by injection Hstore as <-.
  - intros b actual _. unfold commit. by rewrite update_current_position_eq.
  - intros b count _. unfold release. by rewrite update_current_position_eq.
Qed.

Lemma run_flags ops : ∀ b b',
  run ops b = Done b' →
  (can_read b' = true → can_read b = true)
  ∧ (can_write b' = true → can_write b = true).
Proof.
  induction ops as [|op ops IH]; intros b b' Hrun; simpl in Hrun.
  - by injection Hrun as <-.
  - destruct (step op b) as [b1| |] eqn:Hstep; simpl in Hrun; [|discriminate..].
    apply step_flags in Hstep as [??]. apply IH in Hrun as [??]. split; auto.
Qed.

(** X11. Closing is terminal: no sequence of calls opens a direction again.
    A buffer that is not open for reading (for writing) before a run is not
    open for reading (for writing) after it. *)
Theorem closed_direction_stays_closed ops b b' :
  run ops b = Done b' →
  (can_read b = false → can_read b' = false)
  ∧ (can_write b = false → can_write b' = false).
Proof.
  intros Hrun. apply run_flags in Hrun as [Hr Hw].
  split; intros Hclosed.
  - destruct (can_read b') eqn:E; [|done]. rewrite Hr in Hclosed; done.
  - destruct (can_write b') eqn:E; [|done]. rewrite Hw in Hclosed; done.
Qed.

(** X12. A buffer constructed from a collection is never open in both
    directions, neither after construction nor after any sequence of calls:
    the exclusion that [validate_mode] checks at construction is kept. *)
Theorem constructed_from_data_never_both_directions
    (data : list CharType) mode ops b0 b' :
  container_buffer_from data mode = Done b0 →
  run ops b0 = Done b' →
  can_read b' && can_write b' = false.
Proof.
  intros Hctor Hrun.
  unfold container_buffer_from, basic_container_buffer_from, validate_mode,
    streambuf_state_manager in Hctor.
  destruct (mode_has mode ios_base_in && mode_has mode ios_base_out) eqn:Hboth;
    simpl in Hctor; [discriminate|].
  injection Hctor as <-. apply run_flags in Hrun as [Hr Hw].
  unfold can_read, can_write in *. simpl in *.
  destruct (m_stream_can_read b'), (m_stream_can_write b'); try done.
  by rewrite Hr, Hw in Hboth.
Qed.

(** ** What runs of calls keep *)

(** X13. The committed size never goes down: after any sequence of calls it
    is at least what it was. *)
Theorem committed_size_never_decreases ops : ∀ b b',
  run ops b = Done b' → m_size b ≤ m_size b'.
Proof.
  induction ops as [|op ops IH]; intros b b' Hrun; simpl in Hrun.
  - by injection Hrun as <-.
  - destruct (step op b) as [b1| |] eqn:Hstep; simpl in Hrun; [|discriminate..].
    apply step_storage in Hstep as [Hle _]. apply IH in Hrun. lia.
Qed.

Lemma step_reads_only_keeps_data op b b' :
  reads_only op = true → step op b = Done b' → m_data b' = m_data b.
Proof.
  intros Hop Hstep. destruct op; try discriminate Hop; simpl in Hstep.
  - destruct (read b count advance) as [[[n d] b1]| |] eqn:E; simpl in Hstep;
      [|discriminate..].
    injection Hstep as <-. by eapply read_keeps_data.
  - destruct (read_byte b advance) as [[c b1]| |] eqn:E; simpl in Hstep;
      [|discriminate..].
    injection Hstep as <-. by eapply read_byte_keeps_data.
  - unfold _nextc in Hstep.
    destruct (read_byte b true) as [[c b1]| |] eqn:E1; simpl in Hstep;
      [|discriminate..].
    destruct (read_byte b1 false) as [[c2 b2]| |] eqn:E2; simpl in Hstep;
      [|discriminate..].
    injection Hstep as <-.
    apply read_byte_keeps_data in E1, E2. congruence.
  - unfold _ungetc in Hstep.
    destruct (seekoff b (-1) ios_base_cur ios_base_in) as [[pos b1]| |] eqn:E1;
      simpl in Hstep; [|discriminate..].
    apply seekoff_read_head_keeps_data in E1.
    destruct (pos =? traits_eof)%Z; simpl in Hstep;
      [by injection Hstep as <-|].
    unfold getc, _getc in Hstep.
    destruct (can_read b1); simpl in Hstep; [|by injection Hstep as <-].
    destruct (read_byte b1 false) as [[c2 b2]| |] eqn:E2; simpl in Hstep;
      [|discriminate..].
    injection Hstep as <-.
    apply read_byte_keeps_data in E2. congruence.
  - by injection Hstep as <-.
  - injection Hstep as <-. unfold release.
    by rewrite update_current_position_data.
  - by injection Hstep as <-.
  - by injection Hstep as <-.
Qed.

(** X14. Reading does not remove or alter data: after any sequence of reads,
    peeks, [_nextc], [_ungetc], [acquire], [release] and closes, with any
    arguments, the collection is exactly what it was. *)
Theorem reading_keeps_the_collection ops : ∀ b b',
  Forall (λ op, reads_only op = true) ops →
  run ops b = Done b' →
  collection b' = collection b.
Proof.
  induction ops as [|op ops IH]; intros b b' Hops Hrun; simpl in Hrun.
  - by injection Hrun as <-.
  - apply Forall_cons_1 in Hops as [Hop Hops].
    destruct (step op b) as [b1| |] eqn:Hstep; simpl in Hrun; [|discriminate..].
    apply step_reads_only_keeps_data in Hstep; [|done].
    apply IH in Hrun; [|done]. unfold collection in *. congruence.
Qed.

(** ** Writing *)

(** X15. A buffer constructed from a collection in write mode starts with its
    cursor at the end of the collection, so a write appends: the collection
    afterwards is the initial one followed by the characters written. *)
Theorem write_mode_constructor_appends (data : list CharType) mode ptr count :
  mode_has mode ios_base_in = false →
  mode_has mode ios_base_out = true →
  count ≤ data_size ptr →
  data_size data + count ≤ collection_max_size →
  ∃ b0 b1,
    container_buffer_from data mode = Done b0
    ∧ m_current_position b0 = data_size data
    ∧ write b0 ptr count = Done (count, b1)
    ∧ collection b1 = data ++ take (N.to_nat count) ptr
    ∧ m_size b1 = data_size data + count.
Proof.
  intros Hin Hout Hptr Hmax.
  unfold container_buffer_from, basic_container_buffer_from, validate_mode,
    streambuf_state_manager.
  rewrite Hin, Hout. simpl.
  set (b0 := mk_buffer data (data_size data) (data_size data) false true).
  assert (Hwf : buffer_wf b0) by (repeat split; simpl; lia).
  exists b0. destruct (N.eq_dec count 0) as [->|Hcount].
  - exists b0. repeat split. simpl. by rewrite app_nil_r. simpl. lia.
  - eexists. split; [done|]. split; [done|].
    rewrite write_done by (done || simpl; lia). split; [done|].
    cbn [b0 m_current_position m_size m_data collection].
    destruct (N.ltb_spec (data_size data) (data_size data + count)); [|lia].
    split; [|lia].
    rewrite take_ge by (unfold data_size; lia). by rewrite app_nil_r.
Qed.

Lemma write_nothing b ptr : write b ptr 0 = Done (0, b).
Proof. unfold write. by rewrite orb_true_r. Qed.

Lemma write_not_writable b ptr count :
  can_write b = false → write b ptr count = Done (0, b).
Proof. intros Hw. unfold write. by rewrite Hw. Qed.

(** X16. A write can be split: writing the first [c1] characters of an array
    and then the next [c2] leaves the buffer exactly as writing the first
    [c1 + c2] characters in one call does. *)
Theorem write_in_two_parts b ptr c1 c2 :
  buffer_wf b →
  c1 + c2 ≤ data_size ptr →
  m_current_position b + (c1 + c2) ≤ collection_max_size →
  ('(_, b1) ← write b ptr c1;
   '(_, b2) ← write b1 (drop (N.to_nat c1) ptr) c2;
   Done b2)
  = ('(_, b') ← write b ptr (c1 + c2); Done b').
Proof.
  intros Hwf Hptr Hmax.
  destruct (buffer_wf_bounds b Hwf) as (Hcur & Hsize & Hmod & Hlen).
  destruct (can_write b) eqn:Hw;
    [|rewrite !(write_not_writable b) by done; simpl;
      by rewrite write_not_writable].
  destruct (N.eq_dec c1 0) as [->|Hc1].
  { rewrite write_nothing. simpl. by rewrite N.add_0_l. }
  destruct (N.eq_dec c2 0) as [->|Hc2].
  { rewrite N.add_0_r. destruct (write b ptr c1) as [[n b1]| |]; simpl; [|done..].
    by rewrite write_nothing. }
  assert (Hdone1 := write_done b ptr c1 Hwf Hw Hc1).
  rewrite Hdone1 by lia. simpl.
  match goal with |- context [write ?x _ c2] => set (b1 := x) end.
  assert (Hwf1 : buffer_wf b1).
  { eapply wf_write; [apply Hdone1; lia|done]. }
  rewrite write_done; [|done|done|done|rewrite data_size_drop; lia|simpl; lia].
  rewrite write_done by (done || lia). simpl.
  assert (Hpre : length (take (N.to_nat (m_current_position b)) (m_data b))
                 = N.to_nat (m_current_position b)).
  { rewrite length_take. unfold data_size in *. lia. }
  assert (Hmid : length (take (N.to_nat c1) ptr) = N.to_nat c1).
  { rewrite length_take. unfold data_size in *. lia. }
  f_equal. f_equal; [|lia|lia].
  rewrite (app_assoc (take _ (m_data b))).
  rewrite take_app_length'
    by (rewrite length_app, Hpre, Hmid; lia).
  rewrite <- !app_assoc. f_equal. rewrite app_assoc, take_take_drop.
  f_equal; [by rewrite N2Nat.inj_add|].
  destruct (N.ltb_spec (m_size b `max` (m_current_position b + c1))
              (m_current_position b + c1 + c2));
    destruct (N.ltb_spec (m_size b) (m_current_position b + (c1 + c2)));
    try lia; [done|].
  destruct (N.ltb_spec (m_size b) (m_current_position b + c1)); [lia|].
  rewrite (app_assoc (take _ (m_data b))).
  rewrite drop_app_ge by (rewrite length_app, Hpre, Hmid; lia).
  rewrite length_app, Hpre, Hmid, drop_drop. f_equal. lia.
Qed.

(** X17. [_putc] on a buffer that is not open for writing returns the
    sentinel and changes nothing; on a writable buffer, with [cursor + 1]
    not beyond [max_size], it stores the character at the cursor, moves the
    cursor forward by one, raises the committed size to the cursor if
    needed, and returns the character. *)
Theorem putc_stores_character b ch :
  buffer_wf b →
  (can_write b = false → _putc b ch = Done (traits_eof, b))
  ∧ (can_write b = true →
     m_current_position b + 1 ≤ collection_max_size →
     ∃ b',
       _putc b ch = Done (to_int_type ch, b')
       ∧ m_data b' !! N.to_nat (m_current_position b) = Some ch
       ∧ take (N.to_nat (m_current_position b)) (m_data b')
         = take (N.to_nat (m_current_position b)) (m_data b)
       ∧ m_current_position b' = m_current_position b + 1
       ∧ m_size b' = N.max (m_size b) (m_current_position b + 1)).
Proof.
  intros Hwf. destruct (buffer_wf_bounds b Hwf) as (Hcur & Hsize & Hmod & Hlen).
  split.
  - intros Hw. unfold _putc, write. by rewrite Hw.
  - intros Hw Hmax. unfold _putc.
    rewrite write_done by (done || unfold data_size; simpl; lia). simpl.
    assert (Hpre : length (take (N.to_nat (m_current_position b)) (m_data b))
                   = N.to_nat (m_current_position b)).
    { rewrite length_take. unfold data_size in *. lia. }
    eexists. split; [done|]. simpl. repeat split.
    + rewrite lookup_app_r by lia. by rewrite Hpre, Nat.sub_diag.
    + by rewrite take_app_length'.
Qed.

(** ** The stream factories *)

(** X18. [open_istream] never fails, and the buffer it builds reads back
    exactly the collection it was given: everything is available at once,
    and any traversal whose counts add up to at least the length of the
    collection returns the collection, leaves nothing available and leaves
    the collection in place. *)
Theorem open_istream_reads_back_collection (data : list CharType) counts :
  data_size data ≤ collection_max_size →
  data_size data ≤ foldr N.add 0 counts →
  ∃ b b',
    open_istream data = Done b
    ∧ in_avail b = data_size data
    ∧ read_chunks b counts = Done (data, b')
    ∧ in_avail b' = 0
    ∧ collection b' = data.
Proof.
  intros Hmax Hcounts. size_facts.
  set (b := mk_buffer data 0 (data_size data) true false).
  assert (Hwf : buffer_wf b) by (repeat split; simpl; lia).
  exists b. eexists. split; [done|].
  split; [rewrite in_avail_eq by (simpl; lia); simpl; lia|].
  rewrite read_chunks_eq by done.
  cbn [b m_current_position m_size m_data]. rewrite N.sub_0_r, N.min_r by lia.
  change (drop (N.to_nat 0) data) with data.
  rewrite take_ge by (unfold data_size; lia).
  split; [done|]. split; [|done].
  rewrite in_avail_eq by (simpl; lia). simpl. lia.
Qed.

(** ** Room for the caller, traversals, bounds *)

(** X19. [alloc] returns the null pointer and changes nothing on a buffer
    that is not open for writing, and [alloc(0)] changes no buffer. On a
    writable buffer, for a [count] of at least 1 with [cursor + count] not
    beyond [max_size], it returns the position of the cursor and makes room:
    the [count] characters from the cursor on lie inside the collection, so
    that the caller's store of [count] characters succeeds; cursor,
    committed size and the committed characters are left as they are. *)
Theorem alloc_makes_room b count d :
  buffer_wf b →
  (can_write b = false → alloc b count = Done (None, b))
  ∧ (∃ p, alloc b 0 = Done (p, b))
  ∧ (can_write b = true →
     0 < count →
     m_current_position b + count ≤ collection_max_size →
     count ≤ data_size d →
     ∃ b1 b2,
       alloc b count = Done (Some (m_current_position b), b1)
       ∧ m_current_position b + count ≤ data_size (m_data b1)
       ∧ m_current_position b1 = m_current_position b
       ∧ m_size b1 = m_size b
       ∧ take (N.to_nat (m_size b)) (m_data b1)
         = take (N.to_nat (m_size b)) (m_data b)
       ∧ store_through b1 (m_current_position b) d count = Done b2).
Proof.
  intros Hwf. destruct (buffer_wf_bounds b Hwf) as (Hcur & Hsize & Hmod & Hlen).
  size_facts. split; [|split].
  - intros Hw. unfold alloc. by rewrite Hw.
  - unfold alloc. destruct (can_write b); simpl; [|by eexists].
    rewrite size_t_add_small, resize_for_write_eq by lia.
    destruct (N.ltb_spec (m_size b) (m_current_position b + 0)); [lia|].
    by eexists.
  - intros Hw Hpos Hmax Hd. unfold alloc. rewrite Hw. simpl.
    rewrite size_t_add_small by lia. rewrite resize_for_write_eq by lia. simpl.
    destruct (N.ltb_spec (m_size b) (m_current_position b + count)).
    + eexists _, _. split; [done|]. simpl. rewrite data_size_resize.
      split; [done|]. split; [done|]. split; [done|].
      split.
      * rewrite take_resize_le by lia.
        rewrite resize_le by (unfold data_size in *; lia). done.
      * unfold store_through. simpl.
        rewrite std_copy_into_eq by (rewrite ?data_size_resize; lia). done.
    + eexists _, _. split; [done|]. split; [lia|]. do 3 (split; [done|]).
      unfold store_through. rewrite std_copy_into_eq by lia. done.
Qed.

(** X20. A traversal by reads of any counts returns the characters, and
    leaves the buffer in the state, that one read of the total count does. *)
Theorem traversal_equals_single_read b counts :
  buffer_wf b →
  read_chunks b counts
  = ('(_, d, b') ← read b (foldr N.add 0 counts) true; Done (d, b')).
Proof.
  intros Hwf. destruct (buffer_wf_bounds b Hwf) as (Hcur & Hsize & Hmod & Hlen).
  rewrite read_chunks_eq, read_eq by done.
  destruct (N.eqb_spec (m_current_position b) (m_size b)) as [Heq|Hne]; [|done].
  simpl. rewrite Heq, N.sub_diag, N.min_0_r, N.add_0_r.
  rewrite <- Heq. by destruct b.
Qed.





End Properties.

(** * Concrete runs on byte buffers *)

(** The first example of the testable properties: a read-mode buffer over
    five characters. *)
Example read_mode_example :
  (b0 ← container_buffer_from [10; 11; 12; 13; 14] ios_base_in;
   '(n1, d1, b1) ← read b0 3 true;
   '(c, b2) ← _ungetc b1;
   '(n2, d2, b3) ← read b2 10 true;
   '(n3, d3, b4) ← read b3 1 true;
   Done (n1, d1, m_current_position b1, in_avail b1,
         c, m_current_position b2,
         n2, d2, m_current_position b3,
         n3, is_open b4))
  = Done (3, [10; 11; 12], 3, 2, 12%Z, 2, 3, [12; 13; 14], 5, 0, true).
Proof. reflexivity. Qed.

(** The second example: seek-then-write in write mode fills the gap with
    default characters. *)
Example write_mode_example :
  (b0 ← container_buffer_empty ios_base_out;
   '(n1, b1) ← write b0 [1; 2] 2;
   '(pos, b2) ← seekpos b1 5 ios_base_out;
   '(n2, b3) ← write b2 [9] 1;
   Done (n1, pos, n2, collection b3))
  = Done (2, 5%Z, 1, [1; 2; 0; 0; 0; 9]).
Proof. reflexivity. Qed.

Example in_avail_wraps_below_zero :
  in_avail (mk_buffer [1; 2] 3 2 true false) = 2 ^ 64 - 1.
Proof. reflexivity. Qed.

(** ** C1 *)

(** C1 on two writes, the second of which writes one of the two characters
    it is handed. *)
Lemma writes_then_full_read_witness :
  mode_has ios_base_out ios_base_out = true
  ∧ Forall (λ w : list N * N, w.2 ≤ data_size w.1) [([1; 2], 2); ([3; 4], 1)]
  ∧ total_count [([1; 2], 2); ([3; 4], 1)] ≤ collection_max_size
  ∧ ∃ b rb rb',
      write_all (mk_buffer [] 0 0 false true) [([1; 2], 2); ([3; 4], 1)] = Done b
      ∧ m_size b = 3
      ∧ container_buffer_from (collection b) ios_base_in = Done rb
      ∧ read rb 3 true = Done (3, [1; 2; 3], rb').
Proof.
  assert (H1 : mode_has ios_base_out ios_base_out = true) by reflexivity.
  assert (H2 : Forall (λ w : list N * N, w.2 ≤ data_size w.1)
                 [([1; 2], 2); ([3; 4], 1)]).
  { repeat constructor; vm_compute; discriminate. }
  assert (H3 : total_count [([1; 2], 2); ([3; 4], 1)] ≤ collection_max_size).
  { vm_compute; discriminate. }
  do 3 (split; [assumption|]).
  destruct (writes_then_full_read ios_base_out [([1; 2], 2); ([3; 4], 1)] H1 H2 H3)
    as (b0 & b & rb & Hb0 & Hb & Hsize & _ & Hrb & _ & Hread & _).
  injection Hb0 as <-.
  destruct (Hread 3) as [rb' Hrb']; [vm_compute; discriminate|].
  exists b, rb, rb'. auto.
Defined.

(** ** C2 *)

(** C2, as stated, fails: after [alloc(4)] and [commit(1)] on an empty
    write-mode buffer the collection holds 4 characters of which 1 is
    committed; [write] of one character finds [cursor + count = 2] above the
    committed size 1 and resizes the collection to 2: it is truncated, not
    grown. *)
Lemma write_truncates_uncommitted_tail :
  ∃ b0 b b' : basic_container_buffer (CharType := N),
    container_buffer_empty ios_base_out = Done b0
    ∧ run [op_alloc 4; op_commit 1] b0 = Done b
    ∧ can_write b = true
    ∧ m_size b < m_current_position b + 1
    ∧ data_size (m_data b) = 4
    ∧ write b [7] 1 = Done (1, b')
    ∧ data_size (m_data b') = 2.
Proof. by eexists _, _, _; repeat split. Qed.

(** The amended C2 on the same state. *)
Lemma write_resizes_to_write_head_witness :
  let b := mk_buffer [5; 0; 0; 0] 1 1 false true in
  buffer_wf b
  ∧ 1 ≤ data_size [7]
  ∧ m_current_position b + 1 ≤ collection_max_size
  ∧ can_write b = true ∧ 1 ≠ 0
  ∧ ∃ b', write b [7] 1 = Done (1, b') ∧ data_size (m_data b') = 2.
Proof.
  intros b.
  assert (H1 : buffer_wf b) by (repeat split; vm_compute; discriminate).
  assert (H2 : 1 ≤ data_size [7]) by (vm_compute; discriminate).
  assert (H3 : m_current_position b + 1 ≤ collection_max_size)
    by (vm_compute; discriminate).
  assert (H4 : can_write b = true ∧ 1 ≠ 0) by (split; [reflexivity|discriminate]).
  do 3 (split; [assumption|]). destruct H4 as [H4 H5]. do 2 (split; [assumption|]).
  destruct (write_resizes_to_write_head b [7] 1 H1 H2 H3) as [_ Hdone].
  destruct (Hdone (conj H4 H5)) as (b' & Hwrite & Hlen & _).
  exists b'. split; [exact Hwrite|exact Hlen].
Defined.

(** ** C3 *)

(** C3, as stated, fails: a buffer constructed in write mode over two
    characters and moved back to position 0 is not open for reading, yet
    [read] returns both characters instead of 0. *)
Lemma read_ignores_closed_read_direction :
  ∃ b0 b1 b2 : basic_container_buffer (CharType := N),
    container_buffer_from [1; 2] ios_base_out = Done b0
    ∧ seekpos b0 0 ios_base_out = Done (0%Z, b1)
    ∧ can_read b1 = false
    ∧ read b1 2 true = Done (2, [1; 2], b2).
Proof. by eexists _, _, _; repeat split. Qed.

(** The amended C3 on a partial read. *)
Lemma read_copies_available_prefix_witness :
  let b := mk_buffer [10; 11; 12; 13; 14] 2 5 true false in
  buffer_wf b
  ∧ m_current_position b ≠ m_size b
  ∧ read b 10 true = Done (3, [12; 13; 14], set_current_position b 5).
Proof.
  intros b.
  assert (H1 : buffer_wf b) by (repeat split; vm_compute; discriminate).
  assert (H2 : m_current_position b ≠ m_size b) by discriminate.
  do 2 (split; [assumption|]).
  destruct (read_copies_available_prefix b 10 true H1) as [_ Hread].
  exact (Hread H2).
Defined.

(** ** C4 *)

(** C4, as stated, fails: after [alloc(3)], the caller storing 5, 6, 7 and
    [commit(1)], a write-mode seek to position 3 raises the committed size
    from 1 to 3, and the gap (positions 1 and 2) holds the stored 6 and 7,
    not the default character 0. *)
Lemma seek_gap_keeps_uncommitted_tail :
  ∃ b0 b b' : basic_container_buffer (CharType := N),
    container_buffer_empty ios_base_out = Done b0
    ∧ run [op_alloc 3; op_store [5; 6; 7]; op_commit 1] b0 = Done b
    ∧ can_write b = true ∧ can_read b = false
    ∧ m_size b = 1
    ∧ seekpos b 3 ios_base_out = Done (3%Z, b')
    ∧ m_size b' = 3
    ∧ m_data b' = [5; 6; 7]
    ∧ char_default ≠ 6.
Proof. by eexists _, _, _; repeat split. Qed.

(** The amended C4 on a seek relative to the end that opens a gap of three
    characters. *)
Lemma seek_moves_head_within_extent_witness :
  let b := mk_buffer [1; 2] 2 2 false true in
  buffer_wf b
  ∧ ∃ b', seekoff b 3 ios_base_end ios_base_out = Done (5%Z, b')
          ∧ m_data b' = [1; 2; 0; 0; 0] ∧ m_size b' = 5.
Proof.
  intros b.
  assert (H1 : buffer_wf b) by (repeat split; vm_compute; discriminate).
  split; [assumption|].
  destruct (seek_moves_head_within_extent b 3 5 ios_base_out H1)
    as ((_ & _ & Hend) & _ & Hwrite).
  destruct Hwrite as (b' & Hseek & _ & Hsize & _ & _ & _ & _ & Hgap);
    [reflexivity..| |].
  { split; vm_compute; discriminate. }
  exists b'. split; [rewrite Hend; exact Hseek|].
  split; [apply Hgap; reflexivity|exact Hsize].
Defined.

(** ** C5 *)

(** C5: the code does not do what the claim (and the comment in [acquire])
    says. A read-mode buffer that has been read to its end and then closed
    is fully closed and has no data, yet [acquire] returns false: the guard
    on [can_read] returns before the test of [is_open] is reached. *)
Theorem acquire_on_closed_buffer_returns_false :
  ∃ b0 b1 : basic_container_buffer (CharType := N),
    container_buffer_from [1; 2] ios_base_in = Done b0
    ∧ read b0 2 true = Done (2, [1; 2], b1)
    ∧ is_open (_close_read b1) = false
    ∧ in_avail (_close_read b1) = 0
    ∧ acquire (_close_read b1) None 0 = (false, None, 0).
Proof. by eexists _, _; repeat split. Qed.

(** ** C6 *)

(** C6: the code does not do what the claim says for the constructor that
    starts from an empty collection. With both the read and the write flag
    set, the constructor taking a collection throws [invalid_argument]; the
    constructor without a collection never calls [validate_mode] and returns
    a buffer open in both directions. *)
Theorem container_buffer_empty_accepts_both_flags :
  let mode := N.lor ios_base_in ios_base_out in
  mode_has mode ios_base_in = true
  ∧ mode_has mode ios_base_out = true
  ∧ container_buffer_from (CharType := N) [] mode = Throws invalid_argument
  ∧ container_buffer_empty (CharType := N) mode
    = Done (mk_buffer [] 0 0 true true).
Proof. by repeat split. Qed.

(** ** C7 *)

(** C7, as stated, fails: after [alloc(4)] and [commit(1)] the collection has
    length 4; [alloc(1)] resizes it to [cursor + 1 = 2]. *)
Lemma alloc_shortens_collection :
  ∃ b0 b b' : basic_container_buffer (CharType := N),
    container_buffer_empty ios_base_out = Done b0
    ∧ run [op_alloc 4; op_commit 1] b0 = Done b
    ∧ step (op_alloc 1) b = Done b'
    ∧ data_size (m_data b) = 4
    ∧ data_size (m_data b') = 2.
Proof. by eexists _, _, _; repeat split. Qed.

(** The amended C7 on a write that drops an uncommitted tail. *)
Lemma storage_never_cut_below_committed_size_witness :
  let b := mk_buffer [5; 0; 0; 0] 1 1 false true in
  let b' := mk_buffer [5; 7] 2 2 false true in
  step (op_write [7] 1) b = Done b'
  ∧ m_size b ≤ data_size (m_data b)
  ∧ m_size b ≤ data_size (m_data b').
Proof.
  intros b b'.
  assert (H1 : step (op_write [7] 1) b = Done b') by reflexivity.
  assert (H2 : m_size b ≤ data_size (m_data b)) by (vm_compute; discriminate).
  do 2 (split; [assumption|]).
  exact (proj1 (storage_never_cut_below_committed_size _ b b' H1 H2)).
Defined.

(** ** C8 *)

(** C8: the code does not keep the invariant that the claim, and the
    assertions at the end of [update_current_position], state. [release]
    and [commit] add their argument to the cursor without comparing it with
    anything: on a read-mode buffer over two characters, [acquire] hands
    out a view of 2 characters and [release(ptr, 5)] leaves the cursor at 5,
    beyond the committed size 2; on an empty write-mode buffer, [alloc(2)]
    makes room for 2 characters and [commit(5)] leaves cursor and committed
    size at 5, beyond the length 2 of the collection. *)
Theorem release_and_commit_break_invariant :
  ∃ b0 b1 w0 w1 w2 : basic_container_buffer (CharType := N),
    container_buffer_from [1; 2] ios_base_in = Done b0
    ∧ acquire b0 None 0 = (true, Some 0, 2)
    ∧ step (op_release 5) b0 = Done b1
    ∧ m_size b1 = 2 ∧ m_current_position b1 = 5
    ∧ container_buffer_empty ios_base_out = Done w0
    ∧ alloc w0 2 = Done (Some 0, w1)
    ∧ step (op_commit 5) w1 = Done w2
    ∧ data_size (m_data w2) = 2 ∧ m_size w2 = 5.
Proof. by eexists _, _, _, _, _; repeat split. Qed.

(** ** C9 *)

(** C9 on a buffer with an uncommitted tail. *)
Lemma alloc_fill_commit_is_write_witness :
  let b := mk_buffer [5; 0; 0; 0] 1 1 false true in
  buffer_wf b ∧ can_write b = true
  ∧ alloc_fill_commit b [7; 8] 2 = ('(_, b') ← write b [7; 8] 2; Done b')
  ∧ write b [7; 8] 2 = Done (2, mk_buffer [5; 7; 8] 3 3 false true).
Proof.
  intros b.
  assert (H1 : buffer_wf b) by (repeat split; vm_compute; discriminate).
  assert (H2 : can_write b = true) by reflexivity.
  do 2 (split; [assumption|]).
  split; [exact (alloc_fill_commit_is_write b [7; 8] 2 H1 H2)|reflexivity].
Defined.

(** ** C10 *)

(** C10 on a run that also calls [release] and [commit] beyond the data
    and tries to write. *)
Lemma read_mode_committed_size_is_fixed_witness :
  let ops := [op_read 2 true; op_release 5; op_commit 7;
              op_seekpos 1 ios_base_in; op_write [9] 1; op_alloc 3] in
  let b0 := mk_buffer [1; 2; 3] 0 3 true false in
  let b' := mk_buffer [1; 2; 3] 1 3 true false in
  mode_has ios_base_in ios_base_in = true
  ∧ container_buffer_from [1; 2; 3] ios_base_in = Done b0
  ∧ run ops b0 = Done b'
  ∧ m_size b' = data_size [1; 2; 3].
Proof.
  intros ops b0 b'.
  assert (H1 : mode_has ios_base_in ios_base_in = true) by reflexivity.
  assert (H2 : container_buffer_from [1; 2; 3] ios_base_in = Done b0)
    by reflexivity.
  assert (H3 : run ops b0 = Done b') by reflexivity.
  do 3 (split; [assumption|]).
  exact (read_mode_committed_size_is_fixed [1; 2; 3] ios_base_in ops b0 b' H1 H2 H3).
Defined.

(** * Concrete runs for the further properties *)

Ltac by_computation := vm_compute; first [reflexivity | discriminate | tauto].

(** X1 in the middle of three characters. *)
Lemma read_byte_returns_character_under_cursor_witness :
  let b := mk_buffer [10; 11; 12] 1 3 true false in
  buffer_wf b ∧ m_current_position b < m_size b
  ∧ ∃ c, m_data b !! 1%nat = Some c ∧ _sgetc b = Done (to_int_type c, b).
Proof.
  intros b.
  assert (H1 : buffer_wf b) by (repeat split; by_computation).
  assert (H2 : m_current_position b < m_size b) by by_computation.
  do 2 (split; [assumption|]).
  destruct (read_byte_returns_character_under_cursor b false H1) as [_ Hlt].
  destruct (Hlt H2) as (c & Hc & Hget & _).
  exists c. split; [exact Hc|exact Hget].
Defined.

(** X2 at the start of three characters. *)
Lemma nextc_consumes_one_and_peeks_witness :
  let b := mk_buffer [10; 11; 12] 0 3 true false in
  buffer_wf b ∧ m_current_position b + 1 < m_size b
  ∧ ∃ c, m_data b !! 1%nat = Some c
         ∧ _nextc b = Done (to_int_type c, set_current_position b 1).
Proof.
  intros b.
  assert (H1 : buffer_wf b) by (repeat split; by_computation).
  assert (H2 : m_current_position b + 1 < m_size b) by by_computation.
  do 2 (split; [assumption|]).
  destruct (nextc_consumes_one_and_peeks b H1) as (_ & _ & Hmore).
  destruct (Hmore H2) as (c & Hc & Hnext).
  exists c. split; [exact Hc|exact Hnext].
Defined.

(** X3 at position 2. *)
Lemma ungetc_moves_back_by_one_witness :
  let b := mk_buffer [10; 11; 12] 2 3 true false in
  buffer_wf b ∧ can_read b = true ∧ 0 < m_current_position b
  ∧ (Z.of_N (m_current_position b) - 1 ≠ traits_eof)%Z
  ∧ ∃ c, m_data b !! 1%nat = Some c
         ∧ _ungetc b = Done (to_int_type c, set_current_position b 1).
Proof.
  intros b.
  assert (H1 : buffer_wf b) by (repeat split; by_computation).
  assert (H2 : can_read b = true) by reflexivity.
  assert (H3 : 0 < m_current_position b) by by_computation.
  assert (H4 : (Z.of_N (m_current_position b) - 1 ≠ traits_eof)%Z)
    by by_computation.
  do 4 (split; [assumption|]).
  destruct (ungetc_moves_back_by_one b H1) as [_ Hback].
  destruct (Hback H2 H3 H4) as (c & Hc & Hunget).
  exists c. split; [exact Hc|exact Hunget].
Defined.

(** X4 in the middle of three characters. *)
Lemma bumpc_then_ungetc_restores_witness :
  let b := mk_buffer [10; 11; 12] 1 3 true false in
  buffer_wf b ∧ can_read b = true ∧ m_current_position b < m_size b
  ∧ (Z.of_N (m_current_position b) ≠ traits_eof)%Z
  ∧ ∃ c b1, _sbumpc b = Done (to_int_type c, b1)
            ∧ _ungetc b1 = Done (to_int_type c, b).
Proof.
  intros b.
  assert (H1 : buffer_wf b) by (repeat split; by_computation).
  assert (H2 : can_read b = true) by reflexivity.
  assert (H3 : m_current_position b < m_size b) by by_computation.
  assert (H4 : (Z.of_N (m_current_position b) ≠ traits_eof)%Z) by by_computation.
  do 4 (split; [assumption|]).
  exact (bumpc_then_ungetc_restores b H1 H2 H3 H4).
Defined.

(** X5 on a request larger than what is available. *)
Lemma scopy_previews_sgetn_witness :
  let b := mk_buffer [10; 11; 12] 1 3 true false in
  buffer_wf b
  ∧ ∃ d b', _scopy b 5 = Done (2, d, b) ∧ _sgetn b 5 = Done (2, d, b').
Proof.
  intros b.
  assert (H1 : buffer_wf b) by (repeat split; by_computation).
  split; [assumption|].
  destruct (scopy_previews_sgetn b 5 H1) as (d & b' & Hcopy & Hget & _).
  exists d, b'. split; [exact Hcopy|exact Hget].
Defined.

(** X6: the tail from position 1. *)
Lemma seek_then_read_returns_tail_witness :
  let b := mk_buffer [10; 11; 12] 3 3 true false in
  buffer_wf b ∧ can_read b = true
  ∧ mode_has ios_base_in ios_base_in = true ∧ 1 ≤ m_size b
  ∧ ∃ b1 b2, seekpos b 1 ios_base_in = Done (1%Z, b1)
             ∧ read b1 2 true = Done (2, [11; 12], b2).
Proof.
  intros b.
  assert (H1 : buffer_wf b) by (repeat split; by_computation).
  assert (H2 : can_read b = true) by reflexivity.
  assert (H3 : mode_has ios_base_in ios_base_in = true) by reflexivity.
  assert (H4 : 1 ≤ m_size b) by by_computation.
  do 4 (split; [assumption|]).
  destruct (seek_then_read_returns_tail b 1 ios_base_in H1 H2 H3 H4)
    as (b1 & b2 & Hseek & Hread & _).
  exists b1, b2. split; [exact Hseek|exact Hread].
Defined.

(** X7 on a write-mode buffer. *)
Lemma seekoff_zero_from_cursor_reports_position_witness :
  let b := mk_buffer [10; 11; 12] 2 3 false true in
  buffer_wf b ∧ seekoff b 0 ios_base_cur ios_base_out = Done (2%Z, b).
Proof.
  intros b.
  assert (H1 : buffer_wf b) by (repeat split; by_computation).
  split; [assumption|].
  exact (seekoff_zero_from_cursor_reports_position b ios_base_out H1).
Defined.

(** X8: three characters back from position 2. *)
Lemma seek_before_begin_fails_witness :
  let b := mk_buffer [10; 11; 12] 2 3 false true in
  buffer_wf b ∧ (Z.of_N (m_current_position b) + -3 < 0)%Z
  ∧ seekoff b (-3) ios_base_cur ios_base_out = Done (traits_eof, b).
Proof.
  intros b.
  assert (H1 : buffer_wf b) by (repeat split; by_computation).
  assert (H2 : (Z.of_N (m_current_position b) + -3 < 0)%Z) by by_computation.
  do 2 (split; [assumption|]).
  destruct (seek_before_begin_fails b (-3) ios_base_out H1) as (_ & Hcur & _).
  exact (Hcur H2).
Defined.

(** X9: one of the two characters of the view. *)
Lemma acquire_consume_release_is_read_witness :
  let b := mk_buffer [10; 11; 12] 1 3 true false in
  buffer_wf b ∧ can_read b = true ∧ 1 ≤ in_avail b
  ∧ acquire_consume_release b 1 = ('(_, d, b') ← read b 1 true; Done (d, b'))
  ∧ read b 1 true = Done (1, [11], set_current_position b 2).
Proof.
  intros b.
  assert (H1 : buffer_wf b) by (repeat split; by_computation).
  assert (H2 : can_read b = true) by reflexivity.
  assert (H3 : 1 ≤ in_avail b) by by_computation.
  do 3 (split; [assumption|]).
  split; [exact (acquire_consume_release_is_read b 1 H1 H2 H3)|reflexivity].
Defined.

(** X10 on a destroyed buffer. *)
Lemma closed_buffer_rejects_calls_witness :
  let b := destructor (mk_buffer [10; 11; 12] 1 3 true false) in
  is_open b = false
  ∧ write b [7] 1 = Done (0, b)
  ∧ alloc b 4 = Done (None, b).
Proof.
  intros b.
  assert (H1 : is_open b = false) by reflexivity.
  split; [assumption|].
  destruct (closed_buffer_rejects_calls b [7] 1 7 0%Z 0%Z ios_base_beg
              ios_base_out None H1) as (Hwrite & _).
  destruct (closed_buffer_rejects_calls b [7] 4 7 0%Z 0%Z ios_base_beg
              ios_base_out None H1) as (_ & _ & Halloc & _).
  split; [exact Hwrite|exact Halloc].
Defined.

(** X11: a read-mode buffer stays closed for writing across write-side
    calls. *)
Lemma closed_direction_stays_closed_witness :
  let b := mk_buffer [10; 11; 12] 1 3 true false in
  let ops := [op_write [7] 1; op_alloc 2; op_seekpos 9 ios_base_out;
              op_close_read] in
  run ops b = Done (mk_buffer [10; 11; 12] 1 3 false false)
  ∧ can_write b = false
  ∧ can_write (mk_buffer [10; 11; 12] 1 3 false false) = false.
Proof.
  intros b ops.
  assert (H1 : run ops b = Done (mk_buffer [10; 11; 12] 1 3 false false))
    by reflexivity.
  assert (H2 : can_write b = false) by reflexivity.
  do 2 (split; [assumption|]).
  exact (proj2 (closed_direction_stays_closed ops b _ H1) H2).
Defined.

(** X12 on a write-mode buffer. *)
Lemma constructed_from_data_never_both_directions_witness :
  let ops := [op_write [7] 1; op_seekpos 0 ios_base_out; op_read 2 true] in
  ∃ b0 b',
    container_buffer_from [10; 11] ios_base_out = Done b0
    ∧ run ops b0 = Done b'
    ∧ can_read b' && can_write b' = false.
Proof.
  intros ops.
  assert (H1 : container_buffer_from [10; 11] ios_base_out
               = Done (mk_buffer [10; 11] 2 2 false true)) by reflexivity.
  assert (H2 : run ops (mk_buffer [10; 11] 2 2 false true)
               = Done (mk_buffer [10; 11; 7] 2 3 false true)) by reflexivity.
  eexists _, _. split; [exact H1|]. split; [exact H2|].
  exact (constructed_from_data_never_both_directions [10; 11] ios_base_out ops _ _ H1 H2).
Defined.

(** X13 across a run that writes, seeks back and reads. *)
Lemma committed_size_never_decreases_witness :
  let b := mk_buffer [10; 11] 2 2 false true in
  let ops := [op_write [7] 1; op_seekpos 0 ios_base_out; op_read 2 true] in
  run ops b = Done (mk_buffer [10; 11; 7] 2 3 false true)
  ∧ m_size b ≤ 3.
Proof.
  intros b ops.
  assert (H1 : run ops b = Done (mk_buffer [10; 11; 7] 2 3 false true))
    by reflexivity.
  split; [assumption|].
  exact (committed_size_never_decreases ops b _ H1).
Defined.

(** X14 across reads, a release beyond the view and a close. *)
Lemma reading_keeps_the_collection_witness :
  let b := mk_buffer [10; 11; 12] 0 3 true false in
  let ops := [op_read 2 true; op_ungetc; op_nextc; op_read_byte false;
              op_release 7; op_close_read] in
  Forall (λ op : operation (CharType := N), reads_only op = true) ops
  ∧ run ops b = Done (mk_buffer [10; 11; 12] 9 3 false false)
  ∧ collection (mk_buffer [10; 11; 12] 9 3 false false) = collection b.
Proof.
  intros b ops.
  assert (H1 : Forall (λ op : operation (CharType := N), reads_only op = true) ops)
    by (repeat constructor).
  assert (H2 : run ops b = Done (mk_buffer [10; 11; 12] 9 3 false false))
    by reflexivity.
  do 2 (split; [assumption|]).
  exact (reading_keeps_the_collection ops b _ H1 H2).
Defined.

(** X15: appending two characters to three. *)
Lemma write_mode_constructor_appends_witness :
  mode_has ios_base_out ios_base_in = false
  ∧ mode_has ios_base_out ios_base_out = true
  ∧ 2 ≤ data_size [7; 8; 9]
  ∧ data_size [10; 11; 12] + 2 ≤ collection_max_size
  ∧ ∃ b0 b1,
      container_buffer_from [10; 11; 12] ios_base_out = Done b0
      ∧ write b0 [7; 8; 9] 2 = Done (2, b1)
      ∧ collection b1 = [10; 11; 12; 7; 8].
Proof.
  assert (H1 : mode_has ios_base_out ios_base_in = false) by reflexivity.
  assert (H2 : mode_has ios_base_out ios_base_out = true) by reflexivity.
  assert (H3 : 2 ≤ data_size [7; 8; 9]) by by_computation.
  assert (H4 : data_size [10; 11; 12] + 2 ≤ collection_max_size)
    by by_computation.
  do 4 (split; [assumption|]).
  destruct (write_mode_constructor_appends [10; 11; 12] ios_base_out [7; 8; 9] 2
              H1 H2 H3 H4) as (b0 & b1 & Hctor & _ & Hwrite & Hdata & _).
  exists b0, b1. split; [exact Hctor|]. split; [exact Hwrite|exact Hdata].
Defined.

(** X16 on a buffer with an uncommitted tail. *)
Lemma write_in_two_parts_witness :
  let b := mk_buffer [5; 0; 0; 0] 1 1 false true in
  buffer_wf b
  ∧ 1 + 2 ≤ data_size [7; 8; 9]
  ∧ m_current_position b + (1 + 2) ≤ collection_max_size
  ∧ ('(_, b1) ← write b [7; 8; 9] 1;
     '(_, b2) ← write b1 (drop 1 [7; 8; 9]) 2;
     Done b2)
    = ('(_, b') ← write b [7; 8; 9] 3; Done b')
  ∧ write b [7; 8; 9] 3 = Done (3, mk_buffer [5; 7; 8; 9] 4 4 false true).
Proof.
  intros b.
  assert (H1 : buffer_wf b) by (repeat split; by_computation).
  assert (H2 : 1 + 2 ≤ data_size [7; 8; 9]) by by_computation.
  assert (H3 : m_current_position b + (1 + 2) ≤ collection_max_size)
    by by_computation.
  do 3 (split; [assumption|]).
  split; [exact (write_in_two_parts b [7; 8; 9] 1 2 H1 H2 H3)|reflexivity].
Defined.

(** X17: overwriting the second of three characters. *)
Lemma putc_stores_character_witness :
  let b := mk_buffer [10; 11; 12] 1 3 false true in
  buffer_wf b ∧ can_write b = true
  ∧ m_current_position b + 1 ≤ collection_max_size
  ∧ ∃ b', _putc b 7 = Done (to_int_type 7, b')
          ∧ m_data b' !! 1%nat = Some 7.
Proof.
  intros b.
  assert (H1 : buffer_wf b) by (repeat split; by_computation).
  assert (H2 : can_write b = true) by reflexivity.
  assert (H3 : m_current_position b + 1 ≤ collection_max_size)
    by by_computation.
  do 3 (split; [assumption|]).
  destruct (putc_stores_character b 7 H1) as [_ Hput].
  destruct (Hput H2 H3) as (b' & Hputc & Hlookup & _).
  exists b'. split; [exact Hputc|exact Hlookup].
Defined.

(** X18: three characters read back in chunks of two. *)
Lemma open_istream_reads_back_collection_witness :
  data_size [10; 11; 12] ≤ collection_max_size
  ∧ data_size [10; 11; 12] ≤ foldr N.add 0 [2; 2]
  ∧ ∃ b b', open_istream [10; 11; 12] = Done b
            ∧ read_chunks b [2; 2] = Done ([10; 11; 12], b').
Proof.
  assert (H1 : data_size [10; 11; 12] ≤ collection_max_size) by by_computation.
  assert (H2 : data_size [10; 11; 12] ≤ foldr N.add 0 [2; 2]) by by_computation.
  do 2 (split; [assumption|]).
  destruct (open_istream_reads_back_collection [10; 11; 12] [2; 2] H1 H2)
    as (b & b' & Hopen & _ & Hread & _).
  exists b, b'. split; [exact Hopen|exact Hread].
Defined.

(** X19: room for three characters behind one committed character. *)
Lemma alloc_makes_room_witness :
  let b := mk_buffer [5] 1 1 false true in
  buffer_wf b ∧ can_write b = true
  ∧ 0 < 3
  ∧ m_current_position b + 3 ≤ collection_max_size
  ∧ 3 ≤ data_size [7; 8; 9]
  ∧ ∃ b1 b2,
      alloc b 3 = Done (Some 1, b1)
      ∧ store_through b1 1 [7; 8; 9] 3 = Done b2.
Proof.
  intros b.
  assert (H1 : buffer_wf b) by (repeat split; by_computation).
  assert (H2 : can_write b = true) by reflexivity.
  assert (H0 : 0 < 3) by by_computation.
  assert (H3 : m_current_position b + 3 ≤ collection_max_size)
    by by_computation.
  assert (H4 : 3 ≤ data_size [7; 8; 9]) by by_computation.
  do 5 (split; [assumption|]).
  destruct (alloc_makes_room b 3 [7; 8; 9] H1) as (_ & _ & Hroom).
  destruct (Hroom H2 H0 H3 H4) as (b1 & b2 & Halloc & _ & _ & _ & _ & Hstore).
  exists b1, b2. split; [exact Halloc|exact Hstore].
Defined.

(** Beyond the bound of X19 the sum [cursor + count] wraps around: the
    call returns the pointer and makes no room. *)
Example alloc_wraps_around :
  let b := mk_buffer [5] 1 1 false true in
  alloc b (size_t_modulus - 1) = Done (Some 1, b)
  ∧ store_through b 1 [7; 8] 2 = Undefined.
Proof. by_computation. Qed.

(** Between [max_size] and the modulus the resize throws. *)
Example alloc_beyond_max_size :
  alloc (mk_buffer [5] 1 1 false true) collection_max_size
  = Throws length_error.
Proof. by_computation. Qed.

(** X20: chunks of one, zero and five against one read of six. *)
Lemma traversal_equals_single_read_witness :
  let b := mk_buffer [10; 11; 12] 1 3 true false in
  buffer_wf b
  ∧ read_chunks b [1; 0; 5]
    = ('(_, d, b') ← read b (foldr N.add 0 [1; 0; 5]) true; Done (d, b'))
  ∧ read_chunks b [1; 0; 5] = Done ([11; 12], set_current_position b 3).
Proof.
  intros b.
  assert (H1 : buffer_wf b) by (repeat split; by_computation).
  split; [assumption|].
  split; [exact (traversal_equals_single_read b [1; 0; 5] H1)|reflexivity].
Defined.


(** X22 on a run of every kind of call but [commit] and [release], with
    a seek that grows the collection and a store into the room of an
    [alloc]. *)
Lemma guarded_calls_keep_invariant_witness :
  let ops := [op_write [1; 2; 3] 3; op_seekpos 5 ios_base_out; op_putc 9;
              op_alloc 2; op_store [7; 8]; op_seekoff (-4) ios_base_cur ios_base_out;
              op_read 2 true; op_nextc; op_ungetc; op_acquire;
              op_close_read; op_close_write] in
  let b := mk_buffer [] 0 0 false true in
  let b' := mk_buffer [1; 2; 3; 0; 0; 9; 7; 8] 5 6 false false in
  Forall (λ op, advances_unchecked op = false) ops
  ∧ buffer_wf b
  ∧ run ops b = Done b'
  ∧ m_current_position b' ≤ m_size b'
  ∧ m_size b' ≤ data_size (m_data b')
  ∧ data_size (m_data b') ≤ collection_max_size.
Proof.
  intros ops b b'.
  assert (H1 : Forall (λ op, advances_unchecked op = false) ops)
    by (repeat constructor).
  assert (H2 : buffer_wf b) by (repeat split; by_computation).
  assert (H3 : run ops b = Done b') by reflexivity.
  do 3 (split; [assumption|]).
  exact (guarded_calls_keep_invariant ops b b' H1 H2 H3).
Defined.

(** An array shorter than the characters read is written out of range. *)
Example read_into_short_array :
  read_into (mk_buffer [10; 11; 12] 0 3 true false) [0] 3 true = Undefined.
Proof. by_computation. Qed.
